(** * The X6 graph model ([packages/x6/src/model/model.ts])

    A shallow embedding of the [Model] class: the node and edge membership
    caches kept over a [Collection], the mutation protocol (add, remove,
    reset, clear, batches) and the graph queries built on it (connected
    edges, sub-graph extraction, shortest path).

    JavaScript objects used as string-keyed maps are insertion-ordered
    key/value lists ([KeyValue]); cells are records identified by their
    [id]; code that can throw or recurse without bound runs in the
    [Outcome] monad, with explicit fuel for the recursion depth. *)

From Stdlib Require Import String List ZArith Bool Arith Lia Permutation Relations.
Import ListNotations.
Local Open Scope string_scope.
Local Open Scope list_scope.

(** ** Plain objects used as maps: [KeyValue<T>] and [{ [id: string]: T }]

    The keys of a JavaScript object are enumerated in insertion order (cell
    ids are not array indices), assignment to a present key keeps its place,
    and [delete] drops the key. *)

Module KeyValue.

Definition t (V : Type) : Type := list (string * V).

Definition empty {V : Type} : t V := [].

Fixpoint get {V : Type} (o : t V) (k : string) : option V :=
  match o with
  | [] => None
  | (k', v) :: o' => if String.eqb k' k then Some v else get o' k
  end.

Fixpoint set {V : Type} (o : t V) (k : string) (v : V) : t V :=
  match o with
  | [] => [(k, v)]
  | (k', v') :: o' =>
      if String.eqb k' k then (k', v) :: o' else (k', v') :: set o' k v
  end.

Fixpoint delete {V : Type} (o : t V) (k : string) : t V :=
  match o with
  | [] => []
  | (k', v') :: o' =>
      if String.eqb k' k then delete o' k else (k', v') :: delete o' k
  end.

(** [Object.keys(o)] *)
Definition keys {V : Type} (o : t V) : list string := map fst o.

(** [o[k]] read as a condition, for an object of booleans. *)
Definition truthy (o : t bool) (k : string) : bool :=
  match get o k with
  | Some b => b
  | None => false
  end.

End KeyValue.

(** JavaScript truthiness of a string: only the empty string is falsy. *)
Definition truthy_string (s : string) : bool := negb (String.eqb s "").

(** ** Outcomes of a call

    A call returns, throws (a [TypeError] on a method call on [undefined]),
    or exhausts the recursion depth it was given. *)

Inductive Outcome (A : Type) : Type :=
| Done (a : A)
| Throws (error : string)
| Diverges.

Arguments Done {A} a.
Arguments Throws {A} error.
Arguments Diverges {A}.

Definition bind {A B : Type} (c : Outcome A) (k : A -> Outcome B) : Outcome B :=
  match c with
  | Done a => k a
  | Throws e => Throws e
  | Diverges => Diverges
  end.

Notation "x <- c ;; k" := (bind c (fun x => k))
  (at level 61, c at next level, right associativity).

(** [xs.forEach(x => body(x))] over a threaded state. *)
Fixpoint forEach {A S : Type} (xs : list A) (body : A -> S -> Outcome S) (s : S)
  : Outcome S :=
  match xs with
  | [] => Done s
  | x :: xs' => s' <- body x s ;; forEach xs' body s'
  end.

Definition returns {A : Type} (c : Outcome A) : Prop := exists a, c = Done a.

(** [xs.map(x => f(x))] with a callback that can throw. *)
Fixpoint mapM {A B : Type} (f : A -> Outcome B) (xs : list A) : Outcome (list B) :=
  match xs with
  | [] => Done []
  | x :: xs' => y <- f x ;; ys <- mapM f xs' ;; Done (y :: ys)
  end.

(** ** Arrays used as queues *)

Module JsArray.

(** [a.pop()]: the last element and the array without it; nothing on the
    empty array. *)
Definition pop {A : Type} (a : list A) : option (A * list A) :=
  match rev a with
  | [] => None
  | x :: r => Some (x, rev r)
  end.

(** [a.splice(start, 0, x)] *)
Definition splice {A : Type} (start : nat) (x : A) (a : list A) : list A :=
  firstn start a ++ x :: skipn start a.

End JsArray.

(** ** Cells

    Modelled from the spec: the classes [Cell], [Node] and [Edge] (imported
    from [./cell], [./node] and [./edge]) are not in the sources. A cell is a
    node or an edge, and owns its id, its [zIndex], the back-reference to the
    model that holds it and its children; an edge has a source and a target
    terminal, each a fixed point or a reference to another cell by id. A
    record stands for the object, and its [id] for the identity of it. *)

(** Identity of a [Model] instance, for the [cell.model] back-reference. *)
Definition ModelRef : Type := nat.

(** An edge terminal: a fixed point, or a reference to a cell by id. *)
Inductive Terminal : Type :=
| TerminalPoint (x y : Z)
| TerminalCell (cell : string).

Inductive CellKind : Type :=
| NodeKind
| EdgeKind (source target : Terminal).

#[local] Unset Elimination Schemes.
Inductive Cell : Type := mkCell {
  id : string;
  kind : CellKind;
  zIndex : option Z;
  model : option ModelRef;
  children : list Cell
}.
#[local] Set Elimination Schemes.

Section CellInduction.

Variable P : Cell -> Prop.

Hypothesis step :
  forall k kd z md cs, Forall P cs -> P (mkCell k kd z md cs).

(** Induction over a cell and its containment subtree. *)
Fixpoint Cell_subtree_ind (c : Cell) : P c :=
  match c with
  | mkCell k kd z md cs =>
      step k kd z md cs
        ((fix all (l : list Cell) : Forall P l :=
            match l with
            | [] => Forall_nil P
            | x :: l' => Forall_cons x (Cell_subtree_ind x) (all l')
            end) cs)
  end.

End CellInduction.

Module CellOps.

(** Modelled from the spec: [cell.isEdge()] and [cell.isNode()], the variant
    of the cell. *)
Definition isEdge (c : Cell) : bool :=
  match kind c with
  | EdgeKind _ _ => true
  | NodeKind => false
  end.

Definition isNode (c : Cell) : bool := negb (isEdge c).

Definition set_model (c : Cell) (r : option ModelRef) : Cell :=
  mkCell (id c) (kind c) (zIndex c) r (children c).

Definition set_zIndex (c : Cell) (z : option Z) : Cell :=
  mkCell (id c) (kind c) z (model c) (children c).

(** Modelled from the spec: [Cell.getDescendants({ deep: true })], every cell
    of the containment subtree below the cell, children before their own
    descendants. *)
Fixpoint getDescendants (c : Cell) : list Cell :=
  match c with
  | mkCell _ _ _ _ cs =>
      (fix go (l : list Cell) : list Cell :=
         match l with
         | [] => []
         | ch :: l' => ch :: getDescendants ch ++ go l'
         end) cs
  end.

(** Modelled from the spec: [cell.isDescendantOf(ancestor)], the cell lies in
    the containment subtree below [ancestor]. *)
Definition isDescendantOf (c ancestor : Cell) : bool :=
  existsb (fun d => String.eqb (id d) (id c)) (getDescendants ancestor).

(** [a === b] on cells: a record stands for the object, its [id] for the
    identity of it. *)
Definition same (a b : Cell) : bool := String.eqb (id a) (id b).

End CellOps.

Module Edge.

(** Modelled from the spec: [Edge.getSourceCellId()], the id a terminal
    refers to, absent for a fixed point. *)
Definition getSourceCellId (e : Cell) : option string :=
  match kind e with
  | EdgeKind (TerminalCell c) _ => Some c
  | _ => None
  end.

(** Modelled from the spec: [Edge.getTargetCellId()], likewise for the
    target terminal. *)
Definition getTargetCellId (e : Cell) : option string :=
  match kind e with
  | EdgeKind _ (TerminalCell c) => Some c
  | _ => None
  end.

(** Modelled from the spec: [Edge.setSource(terminal)] and
    [Edge.setTarget(terminal)] replace one terminal of an edge. *)
Definition setSource (t : Terminal) (e : Cell) : Cell :=
  match kind e with
  | EdgeKind _ tgt => mkCell (id e) (EdgeKind t tgt) (zIndex e) (model e) (children e)
  | NodeKind => e
  end.

(** Modelled from the spec: [Edge.setTarget(terminal)], as [setSource]. *)
Definition setTarget (t : Terminal) (e : Cell) : Cell :=
  match kind e with
  | EdgeKind src _ => mkCell (id e) (EdgeKind src t) (zIndex e) (model e) (children e)
  | NodeKind => e
  end.

(** Modelled from the spec: [Edge.hasLoop()], the source and the target of the
    edge are the same cell. *)
Definition hasLoop (e : Cell) : bool :=
  match getSourceCellId e, getTargetCellId e with
  | Some s, Some t => String.eqb s t
  | _, _ => false
  end.

End Edge.

(** ** Option objects *)

(** The option object of the mutation calls ([Collection.AddOptions],
    [Collection.RemoveOptions], [Cell.SetOptions]): one object is handed from
    call to call, so one record carries every recognised flag. *)
Module Options.

Record t : Type := mk {
  dry : bool;
  clear : bool;
  disconnectEdges : bool;
  position : option Z;
  maxPosition : option Z
}.

(** [{}] *)
Definition none : t := mk false false false None None.

(** [{ ...options, clear: true }] *)
Definition with_clear (o : t) : t :=
  mk (dry o) true (disconnectEdges o) (position o) (maxPosition o).

(** [{ ...options, position: p, maxPosition: q }] *)
Definition with_position (o : t) (p q : option Z) : t :=
  mk (dry o) (clear o) (disconnectEdges o) p q.

End Options.

Module GetConnectedEdgesOptions.

(** [incoming] and [outgoing] are tested against [null], the other flags
    only for truthiness. *)
Record t : Type := mk {
  incoming : option bool;
  outgoing : option bool;
  indirect : bool;
  deep : bool;
  enclosed : bool
}.

Definition none : t := mk None None false false false.

End GetConnectedEdgesOptions.

Module GetSubgraphOptions.

Record t : Type := mk { deep : bool }.

Definition none : t := mk false.

(** The same object is handed to [getConnectedEdges]. *)
Definition toConnected (o : t) : GetConnectedEdgesOptions.t :=
  GetConnectedEdgesOptions.mk None None false (deep o) false.

End GetSubgraphOptions.

Module GetNeighborsOptions.

Record t : Type := mk {
  incoming : option bool;
  outgoing : option bool;
  indirect : bool;
  deep : bool
}.

Definition none : t := mk None None false false.

(** The same object is handed to [getConnectedEdges]. *)
Definition toConnected (o : t) : GetConnectedEdgesOptions.t :=
  GetConnectedEdgesOptions.mk (incoming o) (outgoing o) (indirect o) (deep o) false.

End GetNeighborsOptions.

Module SearchOptions.

(** [SearchOptions extends GetNeighborsOptions]. *)
Record t : Type := mk {
  incoming : option bool;
  outgoing : option bool;
  indirect : bool;
  deep : bool;
  breadthFirst : bool
}.

Definition none : t := mk None None false false false.

(** The same object is handed to [getNeighbors]. *)
Definition toNeighbors (o : t) : GetNeighborsOptions.t :=
  GetNeighborsOptions.mk (incoming o) (outgoing o) (indirect o) (deep o).

(** [{ ...options, outgoing: true }] *)
Definition with_outgoing (o : t) : t :=
  mk (incoming o) (Some true) (indirect o) (deep o) (breadthFirst o).

(** [{ ...options, incoming: true }] *)
Definition with_incoming (o : t) : t :=
  mk (Some true) (outgoing o) (indirect o) (deep o) (breadthFirst o).

End SearchOptions.

(** ** Events *)

Inductive EventArgs : Type :=
| NullArgs
| CellArgs (cell : Cell) (options : Options.t)
| BatchArgs (name : string) (data : Options.t)
| ResetArgs (current previous : list Cell) (options : Options.t).

Record Event : Type := mkEvent {
  event_name : string;
  event_args : EventArgs
}.

(** ** The collection

    Modelled from the spec: the class [Collection] (imported from
    [./collection]) is not in the sources. It is the ordered, id-indexed
    sequence of cells the model listens to: [has], [get], [first], [last] and
    [toArray] read it, [add], [remove] and [reset] change it and emit the
    [added], [removed] and [reseted] events that drive the caches of the
    model. Its [sorted] and [updated] events, which the model only
    republishes, are left out of the event log. *)

Module Collection.

Definition t : Type := list Cell.

Definition has (c : t) (k : string) : bool :=
  existsb (fun x => String.eqb (id x) k) c.

Definition get (c : t) (k : string) : option Cell :=
  find (fun x => String.eqb (id x) k) c.

Definition toArray (c : t) : list Cell := c.

Definition first (c : t) : option Cell := hd_error c.

Definition last (c : t) : option Cell := hd_error (rev c).

Definition ids (c : t) : list string := map id c.

(** [a] is strictly below [b] in z-order; a cell without [zIndex] sorts last. *)
Definition z_lt (a b : Cell) : bool :=
  match zIndex a, zIndex b with
  | Some x, Some y => (x <? y)%Z
  | Some _, None => true
  | None, _ => false
  end.

Fixpoint insert_by_z (x : Cell) (c : t) : t :=
  match c with
  | [] => [x]
  | y :: c' => if z_lt y x then y :: insert_by_z x c' else x :: c
  end.

(** Modelled from the spec: [Collection.sort()], re-orders by ascending
    [zIndex]; cells of equal [zIndex] keep their relative order. *)
Definition sort (c : t) : t := fold_right insert_by_z [] c.

Definition insert_at (p : nat) (x : Cell) (c : t) : t :=
  firstn p c ++ x :: skipn p c.

(** Modelled from the spec: [Collection.add(cell, options)], a no-op when the
    id is already held; otherwise the cell is appended, or inserted at an
    explicit [position], and the sequence is re-ordered by [zIndex]. The
    boolean tells whether the [added] event fires. *)
Definition add (x : Cell) (options : Options.t) (c : t) : t * bool :=
  if has c (id x) then (c, false)
  else
    let c' := match Options.position options with
              | Some p => insert_at (Z.to_nat p) x c
              | None => c ++ [x]
              end in
    (sort c', true).

Definition remove_id (k : string) (c : t) : t :=
  filter (fun x => negb (String.eqb (id x) k)) c.

(** Modelled from the spec: [Collection.remove(cell, options)], deletes the
    held cell of that identity and reports it, for the [removed] event; a
    cell that is not held is skipped. *)
Definition remove (x : Cell) (c : t) : t * option Cell :=
  match get c (id x) with
  | Some held => (remove_id (id x) c, Some held)
  | None => (c, None)
  end.

(** Modelled from the spec: [Collection.reset(cells, options)], replaces the
    whole contents; as no two held cells share an id, a later cell with an id
    already taken is dropped, like in [add]. *)
Definition reset (cells : list Cell) : t :=
  sort (fold_left (fun c x => if has c (id x) then c else c ++ [x]) cells []).

(** [new Collection(cells)] *)
Definition create (cells : list Cell) : t := reset cells.

(** Replaces the held cell of id [k] by [f] of it: a held cell mutated in
    place. *)
Definition update (k : string) (f : Cell -> Cell) (c : t) : t :=
  map (fun x => if String.eqb (id x) k then f x else x) c.

End Collection.

(** ** Shortest paths

    Modelled from the spec: the namespace [Dijkstra] (imported from
    [../common]) is not in the sources. [run] scans the vertices of the
    adjacency list by increasing tentative distance and relaxes the arcs that
    leave each of them. *)

Module Dijkstra.

Definition AdjacencyList : Type := KeyValue.t (list string).

Definition Weight : Type := string -> string -> Z.

(** A tentative distance; [None] is [Infinity]. *)
Definition Dist : Type := option Z.

Definition dist_lt (a b : Dist) : bool :=
  match a, b with
  | Some x, Some y => (x <? y)%Z
  | Some _, None => true
  | None, _ => false
  end.

Definition dist_of (dist : KeyValue.t Z) (v : string) : Dist := KeyValue.get dist v.

(** The queued vertex of least tentative distance, the first one on a tie. *)
Fixpoint least (dist : KeyValue.t Z) (queue : list string) : option string :=
  match queue with
  | [] => None
  | v :: queue' =>
      match least dist queue' with
      | Some u => if dist_lt (dist_of dist u) (dist_of dist v) then Some u else Some v
      | None => Some v
      end
  end.

Fixpoint dequeue (u : string) (queue : list string) : list string :=
  match queue with
  | [] => []
  | v :: queue' => if String.eqb v u then queue' else v :: dequeue u queue'
  end.

Record Search : Type := mkSearch {
  dist : KeyValue.t Z;
  previous : KeyValue.t string;
  scanned : KeyValue.t bool
}.

(** The relaxation of the arc from [u] to [v]. *)
Definition relax (weight : Weight) (u v : string) (s : Search) : Search :=
  if negb (KeyValue.truthy (scanned s) v) then
    let alt := option_map (fun d => (d + weight u v)%Z) (dist_of (dist s) u) in
    if dist_lt alt (dist_of (dist s) v) then
      match alt with
      | Some a => mkSearch (KeyValue.set (dist s) v a)
                           (KeyValue.set (previous s) v u) (scanned s)
      | None => s
      end
    else s
  else s.

Fixpoint scan (rounds : nat) (adjacencyList : AdjacencyList) (weight : Weight)
  (queue : list string) (s : Search) : Search :=
  match rounds with
  | O => s
  | S rounds' =>
      match least (dist s) queue with
      | None => s
      | Some u =>
          let s := mkSearch (dist s) (previous s) (KeyValue.set (scanned s) u true) in
          let neighbours := match KeyValue.get adjacencyList u with
                            | Some vs => vs
                            | None => []
                            end in
          let s := fold_left (fun s v => relax weight u v s) neighbours s in
          scan rounds' adjacencyList weight (dequeue u queue) s
      end
  end.

(** Modelled from the spec: [Dijkstra.run(adjacencyList, source, weight)], a
    shortest-path relaxation from [source] over the vertices of the adjacency
    list, with unit weights unless a weight function is given; it returns the
    predecessor links. *)
Definition run (adjacencyList : AdjacencyList) (source : string)
  (weight : option Weight) : KeyValue.t string :=
  let weight := match weight with Some w => w | None => fun _ _ => 1%Z end in
  let queue := KeyValue.keys adjacencyList in
  let s := mkSearch (KeyValue.set KeyValue.empty source 0%Z)
                    KeyValue.empty KeyValue.empty in
  previous (scan (List.length queue) adjacencyList weight queue s).

End Dijkstra.

Module GetShortestPathOptions.

Record t : Type := mk {
  directed : bool;
  weight : option Dijkstra.Weight
}.

Definition none : t := mk false None.

End GetShortestPathOptions.

(** ** The model *)

Module Model.

Record t : Type := mk {
  self : ModelRef;
  collection : Collection.t;
  batches : KeyValue.t Z;
  addings : list string;
  (** the events republished to the owning graph, when there is one *)
  graph : option (list Event);
  nodes : KeyValue.t bool;
  edges : KeyValue.t bool;
  (** the events triggered on the model itself, oldest first *)
  events : list Event
}.

Definition set_collection (c : Collection.t) (m : t) : t :=
  mk (self m) c (batches m) (addings m) (graph m) (nodes m) (edges m) (events m).

Definition set_batches (b : KeyValue.t Z) (m : t) : t :=
  mk (self m) (collection m) b (addings m) (graph m) (nodes m) (edges m) (events m).

Definition set_addings (a : list string) (m : t) : t :=
  mk (self m) (collection m) (batches m) a (graph m) (nodes m) (edges m) (events m).

Definition set_graph (g : option (list Event)) (m : t) : t :=
  mk (self m) (collection m) (batches m) (addings m) g (nodes m) (edges m) (events m).

Definition set_nodes (n : KeyValue.t bool) (m : t) : t :=
  mk (self m) (collection m) (batches m) (addings m) (graph m) n (edges m) (events m).

Definition set_edges (e : KeyValue.t bool) (m : t) : t :=
  mk (self m) (collection m) (batches m) (addings m) (graph m) (nodes m) e (events m).

Definition set_events (ev : list Event) (m : t) : t :=
  mk (self m) (collection m) (batches m) (addings m) (graph m) (nodes m) (edges m) ev.

(** [new Model(cells)]: the collection is built before [setup] subscribes to
    it, so the caches start empty. *)
Definition create (this : ModelRef) (cells : list Cell) : t :=
  mk this (Collection.create cells) KeyValue.empty [] None
     KeyValue.empty KeyValue.empty [].

Definition notify (name : string) (args : EventArgs) (m : t) : t :=
  let m := set_events (events m ++ [mkEvent name args]) m in
  match graph m with
  | Some log =>
      if (String.eqb name "sorted" || String.eqb name "reseted"
          || String.eqb name "updated")%bool
      then set_graph (Some (log ++ [mkEvent ("model:" ++ name) args])) m
      else set_graph (Some (log ++ [mkEvent name args])) m
  | None => m
  end.

Definition onCellAdded (cell : Cell) (m : t) : t :=
  let cellId := id cell in
  if CellOps.isEdge cell
  then set_edges (KeyValue.set (edges m) cellId true) m
  else set_nodes (KeyValue.set (nodes m) cellId true) m.

Definition onReset (cells : list Cell) (m : t) : t :=
  let m := set_nodes KeyValue.empty m in
  let m := set_edges KeyValue.empty m in
  fold_left (fun m cell => onCellAdded cell m) cells m.

(** The handlers [setup] subscribes to the collection. *)
Definition on_collection_reseted (current previous : list Cell)
  (options : Options.t) (m : t) : t :=
  notify "reseted" (ResetArgs current previous options) (onReset current m).

Definition on_collection_added (cell : Cell) (options : Options.t) (m : t) : t :=
  let m := onCellAdded cell m in
  let m := notify "cell:added" (CellArgs cell options) m in
  if CellOps.isNode cell then notify "node:added" (CellArgs cell options) m
  else if CellOps.isEdge cell then notify "edge:added" (CellArgs cell options) m
  else m.

(** *** Reading the collection *)

Definition has (m : t) (k : string) : bool := Collection.has (collection m) k.

Definition getCell (m : t) (k : string) : option Cell :=
  Collection.get (collection m) k.

Definition getCells (m : t) : list Cell := Collection.toArray (collection m).

Definition total (m : t) : nat := List.length (collection m).

Definition getMaxZIndex (m : t) : Z :=
  match Collection.last (collection m) with
  | Some last => match zIndex last with Some z => z | None => 0%Z end
  | None => 0%Z
  end.

Definition getMinZIndex (m : t) : Z :=
  match Collection.first (collection m) with
  | Some first => match zIndex first with Some z => z | None => 0%Z end
  | None => 0%Z
  end.

Definition getCellsFromCache (m : t) (cache : KeyValue.t bool) : list Cell :=
  flat_map (fun k => match getCell m k with Some c => [c] | None => [] end)
           (KeyValue.keys cache).

Definition getNodes (m : t) : list Cell := getCellsFromCache m (nodes m).

Definition getEdges (m : t) : list Cell := getCellsFromCache m (edges m).

(** *** Batches *)

(** [this.batches[name] || 0] *)
Definition counter (m : t) (name : string) : Z :=
  match KeyValue.get (batches m) name with
  | Some n => n
  | None => 0%Z
  end.

Definition startBatch (name : string) (data : Options.t) (m : t) : t :=
  let m := set_batches (KeyValue.set (batches m) name (counter m name + 1)%Z) m in
  notify "batch:start" (BatchArgs name data) m.

Definition stopBatch (name : string) (data : Options.t) (m : t) : t :=
  let m := set_batches (KeyValue.set (batches m) name (counter m name - 1)%Z) m in
  notify "batch:stop" (BatchArgs name data) m.

Definition executeBatch (name : string) (execute : t -> Outcome t)
  (data : Options.t) (m : t) : Outcome t :=
  let m := startBatch name data m in
  m <- execute m ;;
  Done (stopBatch name data m).

(** [hasActiveBatch(name)]: one name, a list of names, or by default every
    key of [batches]. *)
Definition hasActiveBatch (name : option (string + list string)) (m : t) : bool :=
  let names := match name with
               | None => KeyValue.keys (batches m)
               | Some (inl n) => [n]
               | Some (inr ns) => ns
               end in
  existsb (fun batch => match KeyValue.get (batches m) batch with
                        | Some n => (0 <? n)%Z
                        | None => false
                        end) names.

(** *** Adding cells *)

Definition prepareCell (cell : Cell) (options : Options.t) (m : t) : Cell :=
  let cell :=
    match model cell with
    | None => if negb (Options.dry options)
              then CellOps.set_model cell (Some (self m)) else cell
    | Some _ => cell
    end in
  match zIndex cell with
  | None => CellOps.set_zIndex cell (Some (getMaxZIndex m + 1)%Z)
  | Some _ => cell
  end.

Definition collection_add (cell : Cell) (options : Options.t) (m : t) : t :=
  let '(c, added) := Collection.add cell options (collection m) in
  let m := set_collection c m in
  if added then on_collection_added cell options m else m.

(** [addCell] of a single cell. [addings] is keyed by the cell's id. *)
Fixpoint addCell (cell : Cell) (options : Options.t) (m : t) : t :=
  match cell with
  | mkCell cellId _ _ _ cs =>
      if (negb (has m cellId) && negb (existsb (String.eqb cellId) (addings m)))%bool
      then
        let m := set_addings (cellId :: addings m) m in
        let m := collection_add (prepareCell cell options m) options m in
        let m := (fix eachChild (l : list Cell) (m : t) : t :=
                    match l with
                    | [] => m
                    | child :: l' => eachChild l' (addCell child options m)
                    end) cs m in
        set_addings (filter (fun k => negb (String.eqb cellId k)) (addings m)) m
      else m
  end.

(** The loop [cell.eachChild((child) => this.addCell(child, options))]. *)
Definition eachChild (options : Options.t) (cs : list Cell) (m : t) : t :=
  fold_left (fun m child => addCell child options m) cs m.

(** The loop of [addCells]; [localOptions] is one object, handed to every
    call and counted down after it. *)
Fixpoint addCells_loop (cells : list Cell) (localOptions : Options.t) (m : t)
  : t * Options.t :=
  match cells with
  | [] => (m, localOptions)
  | cell :: cells' =>
      let m := addCell cell localOptions m in
      let localOptions :=
        Options.with_position localOptions
          (option_map (fun p => (p - 1)%Z) (Options.position localOptions))
          (Options.maxPosition localOptions) in
      addCells_loop cells' localOptions m
  end.

Definition addCells (cells : list Cell) (options : Options.t) (m : t) : t :=
  let count := Z.of_nat (List.length cells) in
  if (count =? 0)%Z then m
  else
    let localOptions :=
      Options.with_position options (Some (count - 1)%Z) (Some (count - 1)%Z) in
    let m := startBatch "add" localOptions m in
    let '(m, localOptions) := addCells_loop cells localOptions m in
    stopBatch "add" localOptions m.

Definition resetCells (cells : list Cell) (options : Options.t) (m : t) : t :=
  let items := map (fun cell => prepareCell cell options m) cells in
  let previous := Collection.toArray (collection m) in
  let m := set_collection (Collection.reset items) m in
  on_collection_reseted (Collection.toArray (collection m)) previous options m.

(** *** Edges of a cell *)

(** Modelled from the spec: [Edge.getSourceCell()] and [Edge.getTargetCell()],
    the referenced cell, or [null] when the terminal is a bare point or the
    referenced cell is no longer held. *)
Definition getSourceCell (m : t) (e : Cell) : option Cell :=
  match Edge.getSourceCellId e with
  | Some k => getCell m k
  | None => None
  end.

(** Modelled from the spec: [Edge.getTargetCell()], as [getSourceCell]. *)
Definition getTargetCell (m : t) (e : Cell) : option Cell :=
  match Edge.getTargetCellId e with
  | Some k => getCell m k
  | None => None
  end.

(** The id [t] of a terminal is the id [k]. *)
Definition refers (t : option string) (k : string) : bool :=
  match t with
  | Some s => String.eqb s k
  | None => false
  end.

(** Modelled from the spec: [Cell.getOutgoingEdges()] and
    [Cell.getIncomingEdges()], the edges of the model whose source (target)
    terminal refers to the cell. *)
Definition Cell_getOutgoingEdges (m : t) (node : Cell) : list Cell :=
  filter (fun e => refers (Edge.getSourceCellId e) (id node)) (getEdges m).

(** Modelled from the spec: [Cell.getIncomingEdges()], as
    [Cell_getOutgoingEdges]. *)
Definition Cell_getIncomingEdges (m : t) (node : Cell) : list Cell :=
  filter (fun e => refers (Edge.getTargetCellId e) (id node)) (getEdges m).

(** A [Cell | string] argument: an id is resolved through [getCell], and a
    method call on an unresolved id throws. *)
Definition getOutgoingEdges (m : t) (cell : string + Cell) : Outcome (list Cell) :=
  match cell with
  | inr node => Done (Cell_getOutgoingEdges m node)
  | inl k =>
      match getCell m k with
      | Some node => Done (Cell_getOutgoingEdges m node)
      | None => Throws "TypeError"
      end
  end.

Definition getIncomingEdges (m : t) (cell : string + Cell) : Outcome (list Cell) :=
  match cell with
  | inr node => Done (Cell_getIncomingEdges m node)
  | inl k =>
      match getCell m k with
      | Some node => Done (Cell_getIncomingEdges m node)
      | None => Throws "TypeError"
      end
  end.

(** The state the closures of [getConnectedEdges] share: [result] and [cache]. *)
Definition Collected : Type := (list Cell * KeyValue.t bool)%type.

(** The closure [collect] of [getConnectedEdges]; [fuel] bounds the depth of
    its recursion. *)
Fixpoint collect (fuel : nat) (m : t) (indirect incoming outgoing : bool)
  (cell : Cell) (isOutgoing : bool) (st : Collected) : Outcome Collected :=
  match fuel with
  | O => Diverges
  | S fuel' =>
      edges <- (if isOutgoing then getOutgoingEdges m (inr cell)
                else getIncomingEdges m (inr cell)) ;;
      st <- forEach edges
              (fun edge st =>
                 let '(result, cache) := st in
                 if KeyValue.truthy cache (id edge) then Done st
                 else
                   let st := (result ++ [edge], KeyValue.set cache (id edge) true) in
                   if indirect then
                     st <- (if incoming
                            then collect fuel' m indirect incoming outgoing edge false st
                            else Done st) ;;
                     (if outgoing
                      then collect fuel' m indirect incoming outgoing edge true st
                      else Done st)
                   else Done st) st ;;
      if (indirect && CellOps.isEdge cell)%bool then
        let terminal := if isOutgoing then getTargetCell m cell
                        else getSourceCell m cell in
        match terminal with
        | Some terminal =>
            if CellOps.isEdge terminal then
              let '(result, cache) := st in
              if negb (KeyValue.truthy cache (id terminal)) then
                collect fuel' m indirect incoming outgoing terminal isOutgoing
                        (result ++ [terminal], cache)
              else Done st
            else Done st
        | None => Done st
        end
      else Done st
  end.

(** The closure [collectSub] of the [deep] branch. *)
Definition collectSub (m : t) (enclosed : bool) (embedsCache : KeyValue.t bool)
  (cell : Cell) (isOutgoing : bool) (st : Collected) : Outcome Collected :=
  edges <- (if isOutgoing then getOutgoingEdges m (inl (id cell))
            else getIncomingEdges m (inl (id cell))) ;;
  forEach edges
    (fun edge st =>
       let '(result, cache) := st in
       if negb (KeyValue.truthy cache (id edge)) then
         let inside (c : option Cell) :=
           match c with
           | Some c => KeyValue.truthy embedsCache (id c)
           | None => false
           end in
         if (negb enclosed && inside (getSourceCell m edge)
             && inside (getTargetCell m edge))%bool
         then Done st
         else Done (result ++ [edge], KeyValue.set cache (id edge) true)
       else Done st) st.

Definition is_true (b : option bool) : bool :=
  match b with
  | Some true => true
  | _ => false
  end.

Definition getConnectedEdges (fuel : nat) (m : t) (cell : string + Cell)
  (options : GetConnectedEdgesOptions.t) : Outcome (list Cell) :=
  let node := match cell with inl k => getCell m k | inr c => Some c end in
  match node with
  | None => Done []
  | Some node =>
      let indirect := GetConnectedEdgesOptions.indirect options in
      let '(incoming, outgoing) :=
        match GetConnectedEdgesOptions.incoming options,
              GetConnectedEdgesOptions.outgoing options with
        | None, None => (true, true)
        | i, o => (is_true i, is_true o)
        end in
      let st : Collected := ([], KeyValue.empty) in
      st <- (if outgoing then collect fuel m indirect incoming outgoing node true st
             else Done st) ;;
      st <- (if incoming then collect fuel m indirect incoming outgoing node false st
             else Done st) ;;
      if GetConnectedEdgesOptions.deep options then
        let descendants := CellOps.getDescendants node in
        let embedsCache :=
          fold_left (fun cache cell =>
                       if CellOps.isNode cell then KeyValue.set cache (id cell) true
                       else cache) descendants KeyValue.empty in
        let enclosed := GetConnectedEdgesOptions.enclosed options in
        st <- forEach descendants
                (fun cell st =>
                   if CellOps.isEdge cell then Done st
                   else
                     st <- (if outgoing then collectSub m enclosed embedsCache cell true st
                            else Done st) ;;
                     (if incoming then collectSub m enclosed embedsCache cell false st
                      else Done st)) st ;;
        Done (fst st)
      else Done (fst st)
  end.

(** *** Removing cells *)

Section Removal.

Variable fuel : nat.

(** Modelled from the spec: [cell.remove(options)] on a held cell drops it
    from the model that holds it, by calling back [removeCell]. *)
Variable Cell_remove : Cell -> Options.t -> t -> Outcome t.

Definition removeEdges_with (cell : string + Cell) (options : Options.t) (m : t)
  : Outcome t :=
  edges <- getConnectedEdges fuel m cell GetConnectedEdgesOptions.none ;;
  forEach edges (fun edge m => Cell_remove edge options m) m.

(** Each edge is a held object: its terminals are read from, and written to,
    the cell the collection holds under its id. *)
Definition disconnectEdges_with (cell : string + Cell) (options : Options.t) (m : t)
  : Outcome t :=
  let cellId := match cell with inl k => k | inr c => id c end in
  edges <- getConnectedEdges fuel m cell GetConnectedEdgesOptions.none ;;
  forEach edges
    (fun edge m =>
       let edge := match getCell m (id edge) with Some e => e | None => edge end in
       let sourceCell := getSourceCell m edge in
       let targetCell := getTargetCell m edge in
       let m :=
         match sourceCell with
         | Some sourceCell =>
             if String.eqb (id sourceCell) cellId
             then set_collection
                    (Collection.update (id edge)
                       (Edge.setSource (TerminalPoint 0 0)) (collection m)) m
             else m
         | None => m
         end in
       let m :=
         match targetCell with
         | Some targetCell =>
             if String.eqb (id targetCell) cellId
             then set_collection
                    (Collection.update (id edge)
                       (Edge.setTarget (TerminalPoint 0 0)) (collection m)) m
             else m
         | None => m
         end in
       Done m) m.

(** Returns the model and the removed cell as the call leaves it. *)
Definition afterCellRemoved (cell : Cell) (options : Options.t) (m : t)
  : Outcome (t * Cell) :=
  m <- (if negb (Options.clear options) then
          if Options.disconnectEdges options
          then disconnectEdges_with (inr cell) options m
          else removeEdges_with (inr cell) options m
        else Done m) ;;
  match model cell with
  | Some r => if Nat.eqb r (self m)
              then Done (m, CellOps.set_model cell None)
              else Done (m, cell)
  | None => Done (m, cell)
  end.

Definition onCellRemoved (cell : Cell) (options : Options.t) (m : t)
  : Outcome (t * Cell) :=
  let cellId := id cell in
  let m := if CellOps.isEdge cell
           then set_edges (KeyValue.delete (edges m) cellId) m
           else set_nodes (KeyValue.delete (nodes m) cellId) m in
  afterCellRemoved cell options m.

Definition on_collection_removed (cell : Cell) (options : Options.t) (m : t)
  : Outcome t :=
  r <- onCellRemoved cell options m ;;
  let '(m, cell) := r in
  let m := notify "cell:removed" (CellArgs cell options) m in
  if CellOps.isNode cell then Done (notify "node:removed" (CellArgs cell options) m)
  else if CellOps.isEdge cell
       then Done (notify "edge:removed" (CellArgs cell options) m)
       else Done m.

Definition collection_remove (cell : Cell) (options : Options.t) (m : t)
  : Outcome t :=
  let '(c, removed) := Collection.remove cell (collection m) in
  let m := set_collection c m in
  match removed with
  | Some held => on_collection_removed held options m
  | None => Done m
  end.

Definition removeCell_with (obj : string + Cell) (options : Options.t) (m : t)
  : Outcome t :=
  let cell := match obj with inl k => getCell m k | inr c => Some c end in
  match cell with
  | Some cell =>
      if has m (id cell) then collection_remove cell options m else Done m
  | None => Done m
  end.

End Removal.

(** [removeCell(obj, options)]; [fuel] bounds the nesting of the removals that
    the edge clean-up of a removed cell starts. *)
Fixpoint removeCell (fuel : nat) (obj : string + Cell) (options : Options.t)
  (m : t) : Outcome t :=
  match fuel with
  | O => Diverges
  | S fuel' =>
      removeCell_with fuel'
        (fun cell options m => removeCell fuel' (inr cell) options m)
        obj options m
  end.

Definition Cell_remove (fuel : nat) (cell : Cell) (options : Options.t) (m : t)
  : Outcome t :=
  removeCell fuel (inr cell) options m.

Definition removeEdges (fuel : nat) := removeEdges_with fuel (Cell_remove fuel).

Definition disconnectEdges (fuel : nat) := disconnectEdges_with fuel.

Definition removeCells (fuel : nat) (cells : list Cell) (options : Options.t)
  (m : t) : Outcome t :=
  match cells with
  | [] => Done m
  | _ =>
      executeBatch "remove"
        (forEach cells (fun cell m => removeCell fuel (inr cell) options m))
        Options.none m
  end.

(** *** Clearing *)

(** The comparator [(cell) => (cell.isEdge() ? 1 : 2)] that [clear] sorts
    with: it reads its first argument only. *)
Definition clear_comparefn (cell _ : Cell) : Z :=
  if CellOps.isEdge cell then 1%Z else 2%Z.

Section Clear.

(** [Array.prototype.sort(comparefn)] of the engine the code runs on. *)
Variable Array_sort : (Cell -> Cell -> Z) -> list Cell -> list Cell.

Definition clear (fuel : nat) (options : Options.t) (m : t) : Outcome t :=
  let raw := getCells m in
  if Nat.eqb (List.length raw) 0 then Done m
  else
    let localOptions := Options.with_clear options in
    executeBatch "clear"
      (fun m =>
         let cells := Array_sort clear_comparefn raw in
         forEach cells (fun cell m => Cell_remove fuel cell localOptions m) m)
      localOptions m.

End Clear.

(** *** Sub-graphs *)

(** The locals the passes of [getSubGraph] share. *)
Record SubGraph : Type := mkSubGraph {
  sub_subgraph : list Cell;
  sub_cache : KeyValue.t Cell;
  sub_nodes : list Cell;
  sub_edges : list Cell
}.

Definition cached (cache : KeyValue.t Cell) (k : string) : bool :=
  match KeyValue.get cache k with
  | Some _ => true
  | None => false
  end.

(** The closure [collect] of [getSubGraph]. *)
Definition subgraph_collect (cell : Cell) (s : SubGraph) : SubGraph :=
  if negb (cached (sub_cache s) (id cell)) then
    mkSubGraph (sub_subgraph s ++ [cell])
               (KeyValue.set (sub_cache s) (id cell) cell)
               (if CellOps.isNode cell then sub_nodes s ++ [cell] else sub_nodes s)
               (if CellOps.isEdge cell then sub_edges s ++ [cell] else sub_edges s)
  else s.

(** The input cells, each followed by its descendants under [deep]. *)
Definition subgraph_expanded (cells : list Cell) (deep : bool) : list Cell :=
  flat_map (fun cell => cell :: (if deep then CellOps.getDescendants cell else []))
           cells.

(** One terminal of an edge pulled in by the second pass. *)
Definition subgraph_pull (terminal : option Cell) (s : SubGraph) : SubGraph :=
  match terminal with
  | Some c =>
      if negb (cached (sub_cache s) (id c)) then
        mkSubGraph (sub_subgraph s ++ [c])
                   (KeyValue.set (sub_cache s) (id c) c)
                   (if CellOps.isNode c then sub_nodes s ++ [c] else sub_nodes s)
                   (sub_edges s)
      else s
  | None => s
  end.

(** A connected edge taken by the third pass when both its ends are cached. *)
Definition subgraph_connect (m : t) (edge : Cell) (s : SubGraph) : SubGraph :=
  let inside (c : option Cell) :=
    match c with
    | Some c => cached (sub_cache s) (id c)
    | None => false
    end in
  if (negb (cached (sub_cache s) (id edge))
      && inside (getSourceCell m edge) && inside (getTargetCell m edge))%bool
  then mkSubGraph (sub_subgraph s ++ [edge])
                  (KeyValue.set (sub_cache s) (id edge) edge)
                  (sub_nodes s) (sub_edges s)
  else s.

Definition getSubGraph (fuel : nat) (m : t) (cells : list Cell)
  (options : GetSubgraphOptions.t) : Outcome (list Cell) :=
  let s := mkSubGraph [] KeyValue.empty [] [] in
  let s := fold_left (fun s cell => subgraph_collect cell s)
             (subgraph_expanded cells (GetSubgraphOptions.deep options)) s in
  let s := fold_left
             (fun s edge =>
                subgraph_pull (getTargetCell m edge)
                  (subgraph_pull (getSourceCell m edge) s))
             (sub_edges s) s in
  s <- forEach (sub_nodes s)
         (fun node s =>
            edges <- getConnectedEdges fuel m (inr node)
                       (GetSubgraphOptions.toConnected options) ;;
            Done (fold_left (fun s edge => subgraph_connect m edge s) edges s)) s ;;
  Done (sub_subgraph s).

(** *** Shortest path *)

Definition push (adjacencyList : Dijkstra.AdjacencyList) (k v : string)
  : Dijkstra.AdjacencyList :=
  match KeyValue.get adjacencyList k with
  | Some vs => KeyValue.set adjacencyList k (vs ++ [v])
  | None => KeyValue.set adjacencyList k [v]
  end.

Definition ensure (adjacencyList : Dijkstra.AdjacencyList) (k : string)
  : Dijkstra.AdjacencyList :=
  match KeyValue.get adjacencyList k with
  | Some _ => adjacencyList
  | None => KeyValue.set adjacencyList k []
  end.

(** The body of the loop over [getEdges()]. *)
Definition addArcs (directed : bool) (adjacencyList : Dijkstra.AdjacencyList)
  (edge : Cell) : Dijkstra.AdjacencyList :=
  match Edge.getSourceCellId edge, Edge.getTargetCellId edge with
  | Some sourceId, Some targetId =>
      if (truthy_string sourceId && truthy_string targetId)%bool then
        let adjacencyList := ensure adjacencyList sourceId in
        let adjacencyList := ensure adjacencyList targetId in
        let adjacencyList := push adjacencyList sourceId targetId in
        if negb directed then push adjacencyList targetId sourceId
        else adjacencyList
      else adjacencyList
  | _, _ => adjacencyList
  end.

Definition adjacency (m : t) (directed : bool) : Dijkstra.AdjacencyList :=
  fold_left (addArcs directed) (getEdges m) KeyValue.empty.

(** [while ((targetId = previous[targetId])) path.unshift(targetId)] *)
Fixpoint walk (fuel : nat) (previous : KeyValue.t string) (targetId : string)
  (path : list string) : Outcome (list string) :=
  match fuel with
  | O => Diverges
  | S fuel' =>
      match KeyValue.get previous targetId with
      | Some p => if truthy_string p then walk fuel' previous p (p :: path)
                  else Done path
      | None => Done path
      end
  end.

Definition getShortestPath (fuel : nat) (m : t) (source target : string + Cell)
  (options : GetShortestPathOptions.t) : Outcome (list string) :=
  let adjacencyList := adjacency m (GetShortestPathOptions.directed options) in
  let sourceId := match source with inl k => k | inr c => id c end in
  let previous :=
    Dijkstra.run adjacencyList sourceId (GetShortestPathOptions.weight options) in
  let targetId := match target with inl k => k | inr c => id c end in
  let path := match KeyValue.get previous targetId with
              | Some p => if truthy_string p then [targetId] else []
              | None => []
              end in
  walk fuel previous targetId path.

(** *** First and last cell *)

Definition getFirstCell (m : t) : option Cell := Collection.first (collection m).

Definition getLastCell (m : t) : option Cell := Collection.last (collection m).

(** *** Boundary nodes *)

Definition isBoundary (m : t) (cell : string + Cell) (isOrigin : bool)
  : Outcome bool :=
  let node := match cell with inl k => getCell m k | inr c => Some c end in
  match node with
  | Some node =>
      let arr := if isOrigin then Cell_getIncomingEdges m node
                 else Cell_getOutgoingEdges m node in
      Done (Nat.eqb (List.length arr) 0)
  | None => Throws "TypeError"
  end.

Definition getBoundaryNodes (m : t) (isOrigin : bool) : Outcome (list Cell) :=
  forEach (KeyValue.keys (nodes m))
    (fun nodeId result =>
       boundary <- isBoundary m (inl nodeId) isOrigin ;;
       if boundary then
         match getCell m nodeId with
         | Some node => Done (result ++ [node])
         | None => Done result
         end
       else Done result) [].

Definition getOrigins (m : t) : Outcome (list Cell) := getBoundaryNodes m true.

Definition getLeafs (m : t) : Outcome (list Cell) := getBoundaryNodes m false.

Definition isOrigin (m : t) (cell : string + Cell) : Outcome bool :=
  isBoundary m cell true.

Definition isLeaf (m : t) (cell : string + Cell) : Outcome bool :=
  isBoundary m cell false.

(** *** Neighbours *)

(** [incoming] and [outgoing] as the queries read them: both when neither is
    given, else each for its truthiness. *)
Definition directions (incoming outgoing : option bool) : bool * bool :=
  match incoming, outgoing with
  | None, None => (true, true)
  | i, o => (is_true i, is_true o)
  end.

(** The test [terminalCell && terminalCell.id === cell2.id] of [isNeighbor]. *)
Definition resolves_to (terminalCell : option Cell) (cell : Cell) : bool :=
  match terminalCell with
  | Some c => String.eqb (id c) (id cell)
  | None => false
  end.

Definition isNeighbor (fuel : nat) (m : t) (cell1 cell2 : Cell)
  (options : GetNeighborsOptions.t) : Outcome bool :=
  let '(incoming, outgoing) :=
    directions (GetNeighborsOptions.incoming options)
               (GetNeighborsOptions.outgoing options) in
  edges <- getConnectedEdges fuel m (inr cell1)
             (GetNeighborsOptions.toConnected options) ;;
  Done (existsb
          (fun edge =>
             let sourceCell := getSourceCell m edge in
             let targetCell := getTargetCell m edge in
             if (incoming && resolves_to sourceCell cell2)%bool then true
             else if (outgoing && resolves_to targetCell cell2)%bool then true
             else false) edges).

Section Neighbors.

(** [edge.hasLoop(options)] and [cell.isDescendantOf(ancestor)], methods of
    the classes [Edge] and [Cell], which are not in the sources. *)
Variable Edge_hasLoop : t -> GetNeighborsOptions.t -> Cell -> bool.
Variable Cell_isDescendantOf : Cell -> Cell -> bool.

(** One of the two tests of the reducer of [getNeighbors]: the terminal of
    [edge] on the side that [flag] enables. *)
Definition neighbor_reduce (m : t) (options : GetNeighborsOptions.t)
  (cell edge : Cell) (flag : bool) (terminalCell : option Cell)
  (memo : KeyValue.t Cell) : KeyValue.t Cell :=
  match terminalCell with
  | Some terminalCell =>
      if (flag && CellOps.isNode terminalCell
          && negb (cached memo (id terminalCell)))%bool
      then
        if (Edge_hasLoop m options edge
            || (negb (CellOps.same terminalCell cell)
                && (negb (GetNeighborsOptions.deep options)
                    || negb (Cell_isDescendantOf terminalCell cell))))%bool
        then KeyValue.set memo (id terminalCell) terminalCell
        else memo
      else memo
  | None => memo
  end.

(** One of the two tests on the terminals of [cell] itself, when it is an
    edge. *)
Definition neighbor_own (flag : bool) (terminalCell : option Cell)
  (map : KeyValue.t Cell) : KeyValue.t Cell :=
  if flag then
    match terminalCell with
    | Some terminalCell =>
        if (CellOps.isNode terminalCell
            && negb (cached map (id terminalCell)))%bool
        then KeyValue.set map (id terminalCell) terminalCell
        else map
    | None => map
    end
  else map.

Definition getNeighbors (fuel : nat) (m : t) (cell : Cell)
  (options : GetNeighborsOptions.t) : Outcome (list Cell) :=
  let '(incoming, outgoing) :=
    directions (GetNeighborsOptions.incoming options)
               (GetNeighborsOptions.outgoing options) in
  edges <- getConnectedEdges fuel m (inr cell)
             (GetNeighborsOptions.toConnected options) ;;
  let map :=
    fold_left
      (fun memo edge =>
         let memo := neighbor_reduce m options cell edge incoming
                       (getSourceCell m edge) memo in
         neighbor_reduce m options cell edge outgoing
           (getTargetCell m edge) memo)
      edges KeyValue.empty in
  let map :=
    if CellOps.isEdge cell then
      let map := neighbor_own incoming (getSourceCell m cell) map in
      neighbor_own outgoing (getTargetCell m cell) map
    else map in
  Done (flat_map (fun k => match KeyValue.get map k with
                           | Some c => [c]
                           | None => []
                           end) (KeyValue.keys map)).

(** *** Search *)

(** [distance[id]]; every queued cell has its distance set before it is
    queued. *)
Definition distance_of (distance : KeyValue.t Z) (k : string) : Z :=
  match KeyValue.get distance k with
  | Some d => d
  | None => 0%Z
  end.

Section Search.

(** The state the iterator works on, and the iterator: it answers [false]
    when the call [iterator.call(this, next, distance)] returned [false]. *)
Context {S : Type}.

Variable fuel : nat.
Variable m : t.
Variable iterator : Cell -> Z -> S -> S * bool.
Variable options : GetNeighborsOptions.t.

(** The [while (queue.length > 0)] loop of [breadthFirstSearch], run for at
    most [steps] rounds. *)
Fixpoint breadthFirst_loop (steps : nat) (queue : list Cell)
  (visited : KeyValue.t bool) (distance : KeyValue.t Z) (s : S) : Outcome S :=
  match steps with
  | O => Diverges
  | Datatypes.S steps' =>
      match queue with
      | [] => Done s
      | next :: queue =>
          if KeyValue.truthy visited (id next)
          then breadthFirst_loop steps' queue visited distance s
          else
            let visited := KeyValue.set visited (id next) true in
            let '(s, goes_on) := iterator next (distance_of distance (id next)) s in
            if negb goes_on
            then breadthFirst_loop steps' queue visited distance s
            else
              neighbors <- getNeighbors fuel m next options ;;
              let '(queue, distance) :=
                fold_left
                  (fun '(queue, distance) neighbor =>
                     (queue ++ [neighbor],
                      KeyValue.set distance (id neighbor)
                        (distance_of distance (id next) + 1)%Z))
                  neighbors (queue, distance) in
              breadthFirst_loop steps' queue visited distance s
      end
  end.

(** The loop of [depthFirstSearch]. *)
Fixpoint depthFirst_loop (steps : nat) (queue : list Cell)
  (visited : KeyValue.t bool) (distance : KeyValue.t Z) (s : S) : Outcome S :=
  match steps with
  | O => Diverges
  | Datatypes.S steps' =>
      match JsArray.pop queue with
      | None => Done s
      | Some (next, queue) =>
          if KeyValue.truthy visited (id next)
          then depthFirst_loop steps' queue visited distance s
          else
            let visited := KeyValue.set visited (id next) true in
            let '(s, goes_on) := iterator next (distance_of distance (id next)) s in
            if negb goes_on
            then depthFirst_loop steps' queue visited distance s
            else
              neighbors <- getNeighbors fuel m next options ;;
              let lastIndex := List.length queue in
              let '(queue, distance) :=
                fold_left
                  (fun '(queue, distance) neighbor =>
                     (JsArray.splice lastIndex neighbor queue,
                      KeyValue.set distance (id neighbor)
                        (distance_of distance (id next) + 1)%Z))
                  neighbors (queue, distance) in
              depthFirst_loop steps' queue visited distance s
      end
  end.

End Search.

(** [fuel] bounds the rounds of the loop, and the depth of the recursion of
    [getConnectedEdges] in each. *)
Definition breadthFirstSearch {S : Type} (fuel : nat) (m : t) (cell : Cell)
  (iterator : Cell -> Z -> S -> S * bool) (options : GetNeighborsOptions.t)
  (s : S) : Outcome S :=
  breadthFirst_loop fuel m iterator options fuel [cell] KeyValue.empty
    (KeyValue.set KeyValue.empty (id cell) 0%Z) s.

Definition depthFirstSearch {S : Type} (fuel : nat) (m : t) (cell : Cell)
  (iterator : Cell -> Z -> S -> S * bool) (options : GetNeighborsOptions.t)
  (s : S) : Outcome S :=
  depthFirst_loop fuel m iterator options fuel [cell] KeyValue.empty
    (KeyValue.set KeyValue.empty (id cell) 0%Z) s.

Definition search {S : Type} (fuel : nat) (m : t) (cell : Cell)
  (iterator : Cell -> Z -> S -> S * bool) (options : SearchOptions.t)
  (s : S) : Outcome S :=
  if SearchOptions.breadthFirst options
  then breadthFirstSearch fuel m cell iterator (SearchOptions.toNeighbors options) s
  else depthFirstSearch fuel m cell iterator (SearchOptions.toNeighbors options) s.

(** The iterator of [getSuccessors] and [getPredecessors]; it returns
    nothing, so the search goes on. *)
Definition push_other (cell curr : Cell) (_ : Z) (found : list Cell)
  : list Cell * bool :=
  (if negb (CellOps.same curr cell) then found ++ [curr] else found, true).

(** The iterator of [isSuccessor] and [isPredecessor]. *)
Definition find_other (cell1 cell2 curr : Cell) (_ : Z) (result : bool)
  : bool * bool :=
  if (CellOps.same curr cell2 && negb (CellOps.same curr cell1))%bool
  then (true, false)
  else (result, true).

Definition getSuccessors (fuel : nat) (m : t) (cell : Cell)
  (options : SearchOptions.t) : Outcome (list Cell) :=
  search fuel m cell (push_other cell) (SearchOptions.with_outgoing options) [].

Definition isSuccessor (fuel : nat) (m : t) (cell1 cell2 : Cell) : Outcome bool :=
  search fuel m cell1 (find_other cell1 cell2)
    (SearchOptions.mk None (Some true) false false false) false.

Definition getPredecessors (fuel : nat) (m : t) (cell : Cell)
  (options : SearchOptions.t) : Outcome (list Cell) :=
  search fuel m cell (push_other cell) (SearchOptions.with_incoming options) [].

Definition isPredecessor (fuel : nat) (m : t) (cell1 cell2 : Cell) : Outcome bool :=
  search fuel m cell1 (find_other cell1 cell2)
    (SearchOptions.mk (Some true) None false false false) false.

End Neighbors.

(** *** Trees *)

Section MakeTree.

(** A [TreeItem] is a plain object; [TreeItem_get parent key] is the property
    [parent[key]] when it holds an array. *)
Variable TreeItem : Type.
Variable TreeItem_get : TreeItem -> string -> option (list TreeItem).

(** [MakeTreeOptions]; a [children] function answers nothing when what it
    returns is not an array. *)
Record MakeTreeOptions : Type := mkMakeTreeOptions {
  tree_children : option (string + (TreeItem -> option (list TreeItem)));
  tree_createNode : TreeItem -> Cell;
  tree_createEdge : Cell -> Cell -> Cell
}.

(** The children of [parent], when they are an array. *)
Definition children_of (options : MakeTreeOptions) (parent : TreeItem)
  : option (list TreeItem) :=
  match tree_children options with
  | Some (inr f) => f parent
  | Some (inl key) =>
      TreeItem_get parent (if truthy_string key then key else "children")
  | None => TreeItem_get parent "children"
  end.

Fixpoint makeTree (fuel : nat) (parent : TreeItem) (options : MakeTreeOptions)
  (parentNode : option Cell) (collector : list Cell) : Outcome (list Cell) :=
  match fuel with
  | O => Diverges
  | Datatypes.S fuel' =>
      let children := children_of options parent in
      let '(parentNode, collector) :=
        match parentNode with
        | Some node => (node, collector)
        | None =>
            let node := tree_createNode options parent in
            (node, collector ++ [node])
        end in
      match children with
      | Some children =>
          forEach children
            (fun child collector =>
               let node := tree_createNode options child in
               let edge := tree_createEdge options parentNode node in
               makeTree fuel' child options (Some node)
                 (collector ++ [node; edge]))
            collector
      | None => Done collector
      end
  end.

End MakeTree.

(** *** Deserialisation *)

Section FromJSON.

(** A cell record ([Cell.Properties]) with its [type] tag, and the
    registries and factories of [Node] and [Edge], which are not in the
    sources. *)
Variable Properties : Type.
Variable Properties_type : Properties -> option string.
Variable Node_registry_exist : string -> bool.
Variable Edge_registry_exist : string -> bool.
Variable Node_create : Properties -> Cell.
Variable Edge_create : Properties -> Cell.

(** The argument of [fromJSON]: an array of records, or an object with
    optional [cells], [nodes] and [edges] arrays. *)
Inductive Data : Type :=
| DataArray (cells : list Properties)
| DataObject (cells nodes edges : option (list Properties)).

Definition given (l : option (list Properties)) : list Properties :=
  match l with
  | Some l => l
  | None => []
  end.

(** The records [fromJSON] goes through, in its order. *)
Definition records (data : Data) : list Properties :=
  match data with
  | DataArray cells => cells
  | DataObject cells nodes edges => given cells ++ given nodes ++ given edges
  end.

(** The callback of the final [cells.map]. *)
Definition fromJSON_cell (cell : Properties) : Outcome Cell :=
  match Properties_type cell with
  | Some type =>
      if truthy_string type then
        if Node_registry_exist type then Done (Node_create cell)
        else if Edge_registry_exist type then Done (Edge_create cell)
        else Throws "Error"
      else Throws "Error"
  | None => Throws "Error"
  end.

(** [Model.fromJSON(data)], the function of the namespace. *)
Definition fromJSON (data : Data) : Outcome (list Cell) :=
  mapM fromJSON_cell (records data).

End FromJSON.

End Model.

(** ** [Array.prototype.sort] of the engines

    ECMAScript leaves the order implementation-defined when the comparator is
    not consistent; these are the two algorithms V8 has run on short arrays. *)

Module ArraySort.

Section Engines.

Context {A : Type}.

Variable comparefn : A -> A -> Z.

(** Insertion sort, as V8 ran it on arrays of up to ten elements before
    version 7.0: an element moves left past each [tmp] with
    [comparefn(tmp, element) > 0]. The sorted prefix is kept reversed. *)
Fixpoint insert_left (element : A) (prefix_rev : list A) : list A :=
  match prefix_rev with
  | [] => [element]
  | tmp :: rest =>
      if (0 <? comparefn tmp element)%Z then tmp :: insert_left element rest
      else element :: prefix_rev
  end.

Definition insertion (a : list A) : list A :=
  rev (fold_left (fun prefix_rev element => insert_left element prefix_rev) a []).

(** TimSort, as V8 runs it since version 7.0 on an array of fewer than 64
    elements: the leading run is counted (and reversed when descending), and
    the rest is added to it by binary insertion. *)
Fixpoint run_more (descending : bool) (previous : A) (rest : list A) : nat :=
  match rest with
  | [] => 0
  | current :: rest' =>
      let order := comparefn current previous in
      if (if descending then (0 <=? order)%Z else (order <? 0)%Z) then 0
      else S (run_more descending current rest')
  end.

Definition countAndMakeRun (a : list A) : list A * nat :=
  match a with
  | low :: next :: rest =>
      let descending := (comparefn next low <? 0)%Z in
      let runLength := 2 + run_more descending next rest in
      ((if descending then rev (firstn runLength a) else firstn runLength a)
         ++ skipn runLength a, runLength)
  | _ => (a, List.length a)
  end.

Fixpoint search (steps : nat) (pivot : A) (a : list A) (left right : nat) : nat :=
  match steps with
  | O => left
  | S steps' =>
      if (left <? right)%nat then
        let mid := left + (right - left) / 2 in
        if (comparefn pivot (nth mid a pivot) <? 0)%Z
        then search steps' pivot a left mid
        else search steps' pivot a (mid + 1) right
      else left
  end.

Fixpoint binaryInsertion (count start : nat) (a : list A) : list A :=
  match count with
  | O => a
  | S count' =>
      match nth_error a start with
      | None => a
      | Some pivot =>
          let left := search start pivot a 0 start in
          binaryInsertion count' (S start)
            (firstn left a ++ pivot :: firstn (start - left) (skipn left a)
               ++ skipn (S start) a)
      end
  end.

Definition timsort (a : list A) : list A :=
  if (List.length a <? 2)%nat then a
  else
    let '(a', runLength) := countAndMakeRun a in
    binaryInsertion (List.length a - runLength) runLength a'.

End Engines.

End ArraySort.

(** ** Example graphs *)

Module Examples.

Definition node (k : string) : Cell := mkCell k NodeKind None None [].

Definition edge (k source target : string) : Cell :=
  mkCell k (EdgeKind (TerminalCell source) (TerminalCell target)) None None [].

(** A model built by adding the cells one by one to [new Model()]. *)
Definition build (cells : list Cell) : Model.t :=
  fold_left (fun m cell => Model.addCell cell Options.none m) cells
            (Model.create 0 []).

Definition held (m : Model.t) (k : string) : Cell :=
  match Model.getCell m k with
  | Some c => c
  | None => node k
  end.

(** Nodes A and B joined by the edge E from A to B, and a node C apart. *)
Definition abc : Model.t := build [node "A"; node "B"; edge "E" "A" "B"; node "C"].

(** A node N with a self-loop L. *)
Definition loop : Model.t := build [node "N"; edge "L" "N" "N"].

(** Two edges from N that both end on the edge E2 (from X to Y). *)
Definition fan : Model.t :=
  build [node "N"; node "X"; node "Y"; edge "E2" "X" "Y";
         edge "E1" "N" "E2"; edge "E3" "N" "E2"].

(** Two edges that end on each other. *)
Definition cycle : Model.t :=
  build [node "A"; node "B"; edge "E1" "A" "E2"; edge "E2" "B" "E1"].

(** The path A, B, C, D and a node E apart. *)
Definition path : Model.t :=
  build [node "A"; node "B"; node "C"; node "D"; node "E";
         edge "AB" "A" "B"; edge "BC" "B" "C"; edge "CD" "C" "D"].

(** An edge E1 from N that ends on the edge E2 (from X to Y). *)
Definition chain : Model.t :=
  build [node "N"; node "X"; node "Y"; edge "E2" "X" "Y"; edge "E1" "N" "E2"].

End Examples.

(** * The vocabulary of the properties *)

(** ** Removal *)

Module Removal.

Import Model.

(** The state right after the collection dropped [held] and [onCellRemoved]
    deleted its id from the cache of its kind. *)
Definition dropped (held : Cell) (m : t) : t :=
  let m := set_collection (Collection.remove_id (id held) (collection m)) m in
  if CellOps.isEdge held
  then set_edges (KeyValue.delete (edges m) (id held)) m
  else set_nodes (KeyValue.delete (nodes m) (id held)) m.

(** A property of the state that every elementary step of a removal keeps. *)
Record stable (P : t -> Prop) : Prop := {
  stable_notify : forall name args m, P m -> P (notify name args m);
  stable_dropped : forall held m,
      Collection.get (collection m) (id held) = Some held ->
      P m -> P (dropped held m);
  stable_update : forall k f m,
      (forall x, id (f x) = id x) ->
      (forall x, CellOps.isEdge (f x) = CellOps.isEdge x) ->
      P m -> P (set_collection (Collection.update k f (collection m)) m)
}.

End Removal.

(** ** The membership partition *)

Module Partition.

Import Model.

Definition nodeIds (m : t) : list string := KeyValue.keys (nodes m).

Definition edgeIds (m : t) : list string := KeyValue.keys (edges m).

(** The two caches are disjoint and together hold the ids of the cells of
    the collection. *)
Definition partitioned (m : t) : Prop :=
  (forall k, In k (nodeIds m) -> In k (edgeIds m) -> False) /\
  (forall k, In k (nodeIds m) \/ In k (edgeIds m)
             <-> In k (Collection.ids (getCells m))).

(** Every held cell is filed under its own kind, and only there. *)
Definition classified (m : t) : Prop :=
  forall c, In c (getCells m) ->
            if CellOps.isEdge c
            then In (id c) (edgeIds m) /\ ~ In (id c) (nodeIds m)
            else In (id c) (nodeIds m) /\ ~ In (id c) (edgeIds m).

(** The invariant behind both: ids are unique in the collection, and each
    cache holds exactly the ids of the held cells of its kind. *)
Definition consistent (m : t) : Prop :=
  NoDup (Collection.ids (collection m)) /\
  (forall k, In k (nodeIds m)
             <-> exists c, In c (collection m) /\ id c = k
                           /\ CellOps.isEdge c = false) /\
  (forall k, In k (edgeIds m)
             <-> exists c, In c (collection m) /\ id c = k
                           /\ CellOps.isEdge c = true).

(** The states the mutation calls reach from [new Model()]; [resetCells]
    rebuilds both caches from the new contents, so it opens such a state from
    any model, also one constructed over initial cells. *)
Inductive reachable (Array_sort : (Cell -> Cell -> Z) -> list Cell -> list Cell)
  (this : ModelRef) : t -> Prop :=
| reach_new : reachable Array_sort this (create this [])
| reach_addCell m cell options :
    reachable Array_sort this m ->
    reachable Array_sort this (addCell cell options m)
| reach_addCells m cells options :
    reachable Array_sort this m ->
    reachable Array_sort this (addCells cells options m)
| reach_removeCell m fuel obj options m' :
    reachable Array_sort this m ->
    removeCell fuel obj options m = Done m' ->
    reachable Array_sort this m'
| reach_removeCells m fuel cells options m' :
    reachable Array_sort this m ->
    removeCells fuel cells options m = Done m' ->
    reachable Array_sort this m'
| reach_resetCells m cells options :
    reachable Array_sort this (resetCells cells options m)
| reach_clear m fuel options m' :
    reachable Array_sort this m ->
    clear Array_sort fuel options m = Done m' ->
    reachable Array_sort this m'
| reach_startBatch m name data :
    reachable Array_sort this m ->
    reachable Array_sort this (startBatch name data m)
| reach_stopBatch m name data :
    reachable Array_sort this m ->
    reachable Array_sort this (stopBatch name data m).

End Partition.

(** ** Clearing *)

Module Clearing.

Import Model.

(** The comparators [comparefn] and [comparefn'] agree in sign along the
    renaming [f] on the elements of [l]. *)
Definition same_signs {A : Type} (f : A -> A) (comparefn comparefn' : A -> A -> Z)
  (l : list A) : Prop :=
  forall a b, In a l -> In b l ->
              Z.sgn (comparefn' (f a) (f b)) = Z.sgn (comparefn a b).

(** The cells the [cell:removed] events report, oldest first, each with the
    [clear] flag of the options it was removed under. *)
Definition removals (evs : list Event) : list (string * bool) :=
  flat_map (fun ev =>
              if String.eqb (event_name ev) "cell:removed" then
                match event_args ev with
                | CellArgs cell options => [(id cell, Options.clear options)]
                | _ => []
                end
              else []) evs.

(** The events a call added to the log. *)
Definition since (before after : Model.t) : list Event :=
  skipn (List.length (Model.events before)) (Model.events after).

(** The removed cell as [afterCellRemoved] leaves it. *)
Definition detached (held : Cell) (m : t) : Cell :=
  match model held with
  | Some r => if Nat.eqb r (self m) then CellOps.set_model held None else held
  | None => held
  end.

(** The state after the removal of the held cell [held] under [clear: true]. *)
Definition cleared (options : Options.t) (held : Cell) (m : t) : t :=
  let m1 := Removal.dropped held m in
  let cell := detached held m1 in
  notify (if CellOps.isNode held then "node:removed" else "edge:removed")
         (CellArgs cell options)
         (notify "cell:removed" (CellArgs cell options) m1).

End Clearing.

(** ** Paths *)

Module Paths.

Import Model.

(** An arc of the graph the shortest path is searched in: an edge whose two
    terminals refer to cells, taken from source to target, and also from
    target to source unless [directed]. *)
Definition arc (m : t) (directed : bool) (u v : string) : Prop :=
  exists edge,
    In edge (getEdges m)
    /\ ((Edge.getSourceCellId edge = Some u /\ Edge.getTargetCellId edge = Some v)
        \/ (directed = false
            /\ Edge.getSourceCellId edge = Some v
            /\ Edge.getTargetCellId edge = Some u)).

(** There is a path of arcs from [u] to [v]. *)
Definition connected (m : t) (directed : bool) : string -> string -> Prop :=
  clos_refl_trans string (arc m directed).

(** An arc of an adjacency list. *)
Definition listed (adjacencyList : Dijkstra.AdjacencyList) (u v : string) : Prop :=
  exists vs, KeyValue.get adjacencyList u = Some vs /\ In v vs.

(** Every vertex with a finite tentative distance, or with a predecessor,
    is reached from the source by listed arcs. *)
Definition sound (adjacencyList : Dijkstra.AdjacencyList) (source : string)
  (s : Dijkstra.Search) : Prop :=
  (forall v d, KeyValue.get (Dijkstra.dist s) v = Some d ->
               clos_refl_trans string (listed adjacencyList) source v)
  /\ (forall v u, KeyValue.get (Dijkstra.previous s) v = Some u ->
                  clos_refl_trans string (listed adjacencyList) source v).

(** The path A, B, C, D: exactly three edges, from A to B, from B to C and
    from C to D, in whatever order the edge cache lists them. *)
Definition is_path_ABCD (m : t) : Prop :=
  exists e1 e2 e3,
    Permutation [e1; e2; e3] (getEdges m)
    /\ Edge.getSourceCellId e1 = Some "A" /\ Edge.getTargetCellId e1 = Some "B"
    /\ Edge.getSourceCellId e2 = Some "B" /\ Edge.getTargetCellId e2 = Some "C"
    /\ Edge.getSourceCellId e3 = Some "C" /\ Edge.getTargetCellId e3 = Some "D".

End Paths.

(** ** Sub-graphs *)

Module SubGraphs.

Import Model.

(** Cells of equal id are the same cell: the list holds each object once
    per id. *)
Definition ids_identify (l : list Cell) : Prop :=
  forall c c', In c l -> In c' l -> id c = id c' -> c = c'.

(** [t] is the cell a terminal of the edge [e] resolves to. *)
Definition resolves (m : t) (e t : Cell) : Prop :=
  getSourceCell m e = Some t \/ getTargetCell m e = Some t.

Definition holds (s : SubGraph) (k : string) : Prop :=
  In k (map id (sub_subgraph s)).

(** [cache] records exactly the ids of [subgraph]. *)
Definition tracked (s : SubGraph) : Prop :=
  forall k, cached (sub_cache s) k = true <-> holds s k.

Definition grows (s s' : SubGraph) : Prop :=
  forall c, In c (sub_subgraph s) -> In c (sub_subgraph s').

(** The edges of [subgraph] are the ones listed in [edges]. *)
Definition edges_listed (s : SubGraph) : Prop :=
  forall e, In e (sub_edges s) <-> In e (sub_subgraph s) /\ CellOps.isEdge e = true.

(** Every terminal of [c] that resolves is held. *)
Definition closed_in (m : t) (s : SubGraph) (c : Cell) : Prop :=
  forall t, resolves m c t -> holds s (id t).

End SubGraphs.

(** * Properties *)

(** ** Key/value objects *)

Module KeyValueFacts.

Import KeyValue.

Lemma get_set_same {V : Type} (o : t V) (k : string) (v : V) :
  get (set o k v) k = Some v.
Proof.
  induction o as [|[k' v'] o IH]; simpl.
  - now rewrite String.eqb_refl.
  - destruct (String.eqb k' k) eqn:E; simpl; rewrite E; auto.
Qed.

Lemma get_set_other {V : Type} (o : t V) (k k0 : string) (v : V) :
  k <> k0 -> get (set o k v) k0 = get o k0.
Proof.
  intros Hne. induction o as [|[k' v'] o IH]; simpl.
  - destruct (String.eqb k k0) eqn:E; auto.
    apply String.eqb_eq in E. contradiction.
  - destruct (String.eqb k' k) eqn:E; simpl.
    + apply String.eqb_eq in E. subst k'.
      destruct (String.eqb k k0) eqn:E0; auto.
      apply String.eqb_eq in E0. contradiction.
    + destruct (String.eqb k' k0); auto.
Qed.

Lemma in_keys_set {V : Type} (o : t V) (k k0 : string) (v : V) :
  In k0 (keys (set o k v)) <-> k0 = k \/ In k0 (keys o).
Proof.
  unfold keys. induction o as [|[k' v'] o IH]; simpl.
  - intuition.
  - destruct (String.eqb k' k) eqn:E; simpl.
    + apply String.eqb_eq in E. subst k'. intuition.
    + rewrite IH. intuition.
Qed.

Lemma in_keys_delete {V : Type} (o : t V) (k k0 : string) :
  In k0 (keys (delete o k)) <-> k0 <> k /\ In k0 (keys o).
Proof.
  unfold keys. induction o as [|[k' v'] o IH]; simpl.
  - intuition.
  - destruct (String.eqb k' k) eqn:E; simpl.
    + apply String.eqb_eq in E. subst k'. rewrite IH.
      split; [intuition|]. intros [Hne [H|H]]; [congruence|auto].
    + apply String.eqb_neq in E. rewrite IH.
      split; [intros [H|H]; [subst; intuition|intuition]|intuition].
Qed.

Lemma get_in_keys {V : Type} (o : t V) (k : string) (v : V) :
  get o k = Some v -> In k (keys o).
Proof.
  unfold keys. induction o as [|[k' v'] o IH]; simpl; [discriminate|].
  destruct (String.eqb k' k) eqn:E; auto.
  apply String.eqb_eq in E. auto.
Qed.

Lemma get_none_not_in {V : Type} (o : t V) (k : string) :
  get o k = None <-> ~ In k (keys o).
Proof.
  unfold keys. induction o as [|[k' v'] o IH]; simpl; [intuition|].
  destruct (String.eqb k' k) eqn:E.
  - apply String.eqb_eq in E. split; [discriminate|]. intros H. exfalso. auto.
  - apply String.eqb_neq in E. rewrite IH. intuition.
Qed.

End KeyValueFacts.

(** ** The collection *)

Module CollectionFacts.

Import Collection.

Lemma has_in (c : t) (k : string) : has c k = true <-> In k (ids c).
Proof.
  unfold has, ids. rewrite existsb_exists, in_map_iff.
  split.
  - intros [x [H1 H2]]. exists x. apply String.eqb_eq in H2. auto.
  - intros [x [H1 H2]]. exists x. split; [auto|]. now apply String.eqb_eq.
Qed.

Lemma has_false (c : t) (k : string) : has c k = false <-> ~ In k (ids c).
Proof.
  rewrite <- has_in. destruct (has c k); split; congruence.
Qed.

Lemma get_some (c : t) (k : string) (x : Cell) :
  get c k = Some x -> In x c /\ id x = k.
Proof.
  unfold get. intros H. apply find_some in H.
  rewrite String.eqb_eq in H. exact H.
Qed.

Lemma get_none (c : t) (k : string) : get c k = None <-> has c k = false.
Proof.
  unfold get, has. induction c as [|x c IH]; simpl; [tauto|].
  destruct (String.eqb (id x) k); simpl; [split; discriminate|exact IH].
Qed.

Lemma get_has (c : t) (k : string) (x : Cell) : get c k = Some x -> has c k = true.
Proof.
  intros H. destruct (has c k) eqn:E; auto.
  apply get_none in E. congruence.
Qed.

Lemma insert_by_z_perm (x : Cell) (c : t) : Permutation (insert_by_z x c) (x :: c).
Proof.
  induction c as [|y c IH]; simpl; auto.
  destruct (z_lt y x); auto.
  rewrite IH. apply perm_swap.
Qed.

Lemma sort_perm (c : t) : Permutation (sort c) c.
Proof.
  unfold sort. induction c as [|x c IH]; simpl; auto.
  rewrite insert_by_z_perm. auto.
Qed.

Lemma in_sort (c : t) (x : Cell) : In x (sort c) <-> In x c.
Proof.
  split; apply Permutation_in; [|symmetry]; apply sort_perm.
Qed.

Lemma ids_sort_perm (c : t) : Permutation (ids (sort c)) (ids c).
Proof. unfold ids. apply Permutation_map, sort_perm. Qed.

Lemma has_sort (c : t) (k : string) : has (sort c) k = has c k.
Proof.
  destruct (has c k) eqn:E.
  - apply has_in. apply has_in in E.
    eapply Permutation_in; [symmetry; apply ids_sort_perm|auto].
  - apply has_false. apply has_false in E. intros H. apply E.
    eapply Permutation_in; [apply ids_sort_perm|auto].
Qed.

Lemma in_remove_id (k : string) (c : t) (x : Cell) :
  In x (remove_id k c) <-> In x c /\ id x <> k.
Proof.
  unfold remove_id. rewrite filter_In, negb_true_iff, String.eqb_neq. tauto.
Qed.

Lemma in_update (k : string) (f : Cell -> Cell) (c : t) (y : Cell) :
  In y (update k f c) <->
  exists x, In x c /\ y = (if String.eqb (id x) k then f x else x).
Proof.
  unfold update. rewrite in_map_iff. split; intros [x [H1 H2]]; exists x; auto.
Qed.

Lemma ids_update (k : string) (f : Cell -> Cell) (c : t) :
  (forall x, id (f x) = id x) -> ids (update k f c) = ids c.
Proof.
  intros Hf. unfold ids, update. rewrite map_map. apply map_ext.
  intros x. destruct (String.eqb (id x) k); auto.
Qed.

Lemma length_remove_id (k : string) (c : t) :
  List.length (remove_id k c) <= List.length c.
Proof. apply filter_length_le. Qed.

Lemma length_remove_id_lt (k : string) (c : t) :
  has c k = true -> List.length (remove_id k c) < List.length c.
Proof.
  unfold has, remove_id. induction c as [|x c IH]; simpl; [discriminate|].
  destruct (String.eqb (id x) k); simpl.
  - intros _. pose proof (filter_length_le (fun x => negb (String.eqb (id x) k)) c).
    lia.
  - intros H. apply IH in H. lia.
Qed.

End CollectionFacts.

(** ** Batches *)

Module BatchFacts.

Import Model.

Lemma batches_notify (name : string) (args : EventArgs) (m : t) :
  batches (notify name args m) = batches m.
Proof.
  unfold notify. simpl. destruct (graph m); [|reflexivity].
  destruct (_ || _)%bool; reflexivity.
Qed.

Lemma events_notify (name : string) (args : EventArgs) (m : t) :
  events (notify name args m) = events m ++ [mkEvent name args].
Proof.
  unfold notify. simpl. destruct (graph m); [|reflexivity].
  destruct (_ || _)%bool; reflexivity.
Qed.

Lemma collection_notify (name : string) (args : EventArgs) (m : t) :
  collection (notify name args m) = collection m.
Proof.
  unfold notify. simpl. destruct (graph m); [|reflexivity].
  destruct (_ || _)%bool; reflexivity.
Qed.

Lemma nodes_notify (name : string) (args : EventArgs) (m : t) :
  nodes (notify name args m) = nodes m.
Proof.
  unfold notify. simpl. destruct (graph m); [|reflexivity].
  destruct (_ || _)%bool; reflexivity.
Qed.

Lemma edges_notify (name : string) (args : EventArgs) (m : t) :
  edges (notify name args m) = edges m.
Proof.
  unfold notify. simpl. destruct (graph m); [|reflexivity].
  destruct (_ || _)%bool; reflexivity.
Qed.

Lemma addings_notify (name : string) (args : EventArgs) (m : t) :
  addings (notify name args m) = addings m.
Proof.
  unfold notify. simpl. destruct (graph m); [|reflexivity].
  destruct (_ || _)%bool; reflexivity.
Qed.

Lemma self_notify (name : string) (args : EventArgs) (m : t) :
  self (notify name args m) = self m.
Proof.
  unfold notify. simpl. destruct (graph m); [|reflexivity].
  destruct (_ || _)%bool; reflexivity.
Qed.

Lemma counter_startBatch (name : string) (data : Options.t) (m : t) :
  counter (startBatch name data m) name = (counter m name + 1)%Z.
Proof.
  unfold counter at 1, startBatch. rewrite batches_notify. simpl.
  now rewrite KeyValueFacts.get_set_same.
Qed.

Lemma counter_stopBatch (name : string) (data : Options.t) (m : t) :
  counter (stopBatch name data m) name = (counter m name - 1)%Z.
Proof.
  unfold counter at 1, stopBatch. rewrite batches_notify. simpl.
  now rewrite KeyValueFacts.get_set_same.
Qed.

Lemma hasActiveBatch_counter (name : string) (m : t) :
  hasActiveBatch (Some (inl name)) m = (0 <? counter m name)%Z.
Proof.
  unfold hasActiveBatch, counter. simpl.
  destruct (KeyValue.get (batches m) name); simpl; [apply orb_false_r|reflexivity].
Qed.

End BatchFacts.



(** ** Removal of an unknown id *)

(** C9. [removeCell(id)] with an id the model does not hold is a no-op: it
    returns normally and leaves the whole model state as it was. *)
Theorem removeCell_unknown_id (fuel : nat) (m : Model.t) (k : string)
  (options : Options.t) :
  Model.has m k = false ->
  Model.removeCell (S fuel) (inl k) options m = Done m.
Proof.
  intros H. simpl. unfold Model.removeCell_with, Model.getCell.
  apply CollectionFacts.get_none in H. now rewrite H.
Qed.

Lemma removeCell_unknown_id_witness :
  Model.has Examples.abc "Z" = false /\
  Model.removeCell 1 (inl "Z") Options.none Examples.abc = Done Examples.abc.
Proof.
  split; [reflexivity|].
  apply (removeCell_unknown_id 0 Examples.abc "Z" Options.none). reflexivity.
Defined.

(** ** Adding cells *)

Module AddFacts.

Import Model.

Lemma addCell_eq (cell : Cell) (options : Options.t) (m : t) :
  addCell cell options m =
  if (negb (has m (id cell))
      && negb (existsb (String.eqb (id cell)) (addings m)))%bool
  then
    let m1 := set_addings (id cell :: addings m) m in
    let m2 := collection_add (prepareCell cell options m1) options m1 in
    let m3 := eachChild options (children cell) m2 in
    set_addings (filter (fun k => negb (String.eqb (id cell) k)) (addings m3)) m3
  else m.
Proof.
  destruct cell as [k kd z md cs]. simpl.
  destruct (negb (has m k) && _)%bool; [|reflexivity].
  cbv zeta.
  set (m2 := collection_add _ options _). clearbody m2.
  assert (E : forall l m0,
             (fix eachChild (l : list Cell) (m : t) {struct l} : t :=
                match l with
                | [] => m
                | child :: l' => eachChild l' (addCell child options m)
                end) l m0 = eachChild options l m0).
  { induction l as [|c l IH]; intros m0; simpl; [reflexivity|]. apply IH. }
  now rewrite E.
Qed.

Lemma id_prepareCell (cell : Cell) (options : Options.t) (m : t) :
  id (prepareCell cell options m) = id cell.
Proof.
  unfold prepareCell.
  destruct (model cell); [|destruct (negb (Options.dry options))];
    simpl; destruct (zIndex cell); reflexivity.
Qed.

Lemma isEdge_prepareCell (cell : Cell) (options : Options.t) (m : t) :
  CellOps.isEdge (prepareCell cell options m) = CellOps.isEdge cell.
Proof.
  unfold prepareCell.
  destruct (model cell); [|destruct (negb (Options.dry options))];
    simpl; destruct (zIndex cell); reflexivity.
Qed.

Lemma collection_on_added (cell : Cell) (options : Options.t) (m : t) :
  collection (on_collection_added cell options m) = collection m.
Proof.
  unfold on_collection_added, onCellAdded.
  destruct (CellOps.isNode cell); [|destruct (CellOps.isEdge cell)];
    rewrite ?BatchFacts.collection_notify;
    destruct (CellOps.isEdge cell); reflexivity.
Qed.

Lemma collection_collection_add (cell : Cell) (options : Options.t) (m : t) :
  collection (collection_add cell options m)
  = fst (Collection.add cell options (collection m)).
Proof.
  unfold collection_add.
  destruct (Collection.add cell options (collection m)) as [c added].
  destruct added; [rewrite collection_on_added|]; reflexivity.
Qed.

Lemma in_insert_at (p : nat) (x y : Cell) (c : Collection.t) :
  In y (Collection.insert_at p x c) <-> y = x \/ In y c.
Proof.
  unfold Collection.insert_at. rewrite in_app_iff. simpl.
  assert (H : In y c <-> In y (firstn p c) \/ In y (skipn p c)).
  { rewrite <- in_app_iff. now rewrite firstn_skipn. }
  rewrite H. intuition.
Qed.

Lemma in_add (x y : Cell) (options : Options.t) (c : Collection.t) :
  In y (fst (Collection.add x options c)) <->
  In y c \/ (Collection.has c (id x) = false /\ y = x).
Proof.
  unfold Collection.add. destruct (Collection.has c (id x)) eqn:E; simpl.
  - intuition congruence.
  - rewrite CollectionFacts.in_sort.
    destruct (Options.position options).
    + rewrite in_insert_at. intuition.
    + rewrite in_app_iff. simpl. intuition.
Qed.

Lemma has_mem (c : Collection.t) (k : string) :
  Collection.has c k = true <-> exists x, In x c /\ id x = k.
Proof.
  rewrite CollectionFacts.has_in. unfold Collection.ids. rewrite in_map_iff.
  split; intros [x H]; exists x; tauto.
Qed.

Lemma has_collection_add_mono (cell : Cell) (options : Options.t) (m : t)
  (k : string) :
  has m k = true -> has (collection_add cell options m) k = true.
Proof.
  unfold has. rewrite collection_collection_add, !has_mem.
  intros [x [H1 H2]]. exists x. split; [|exact H2].
  apply in_add. now left.
Qed.

Lemma has_collection_add_self (cell : Cell) (options : Options.t) (m : t) :
  has (collection_add cell options m) (id cell) = true.
Proof.
  unfold has. rewrite collection_collection_add.
  destruct (Collection.has (collection m) (id cell)) eqn:E.
  - unfold Collection.add. now rewrite E.
  - apply has_mem. exists cell. split; [|reflexivity].
    apply in_add. now right.
Qed.

Lemma has_addCell_mono (cell : Cell) :
  forall (options : Options.t) (m : t) (k : string),
    has m k = true -> has (addCell cell options m) k = true.
Proof.
  induction cell as [i kd z md cs IH] using Cell_subtree_ind.
  intros options m k H. rewrite addCell_eq.
  destruct (_ && _)%bool; [|exact H].
  cbv zeta. unfold has at 1. simpl. fold (has (eachChild options cs
    (collection_add (prepareCell (mkCell i kd z md cs) options
       (set_addings (i :: addings m) m)) options
       (set_addings (i :: addings m) m))) k).
  set (m2 := collection_add _ options _).
  assert (H2 : has m2 k = true).
  { apply has_collection_add_mono. exact H. }
  clearbody m2. clear H. revert m2 H2.
  induction IH as [|c cs Hc _ IHcs]; intros m2 H2; simpl; [exact H2|].
  apply IHcs. apply Hc. exact H2.
Qed.

Lemma has_eachChild_mono (options : Options.t) (cs : list Cell) :
  forall (m : t) (k : string),
    has m k = true -> has (eachChild options cs m) k = true.
Proof.
  induction cs as [|c cs IH]; intros m k H; simpl; [exact H|].
  apply IH. apply has_addCell_mono. exact H.
Qed.

(** A cell whose id the model already holds is not added again; this covers
    the second [addCell] of a cell, whose id the first call has stored. *)
Lemma addCell_again (cell cell' : Cell) (options options' : Options.t) (m : t) :
  id cell' = id cell ->
  addCell cell' options' (addCell cell options m) = addCell cell options m.
Proof.
  intros Eid.
  rewrite (addCell_eq cell' options' (addCell cell options m)), Eid.
  rewrite (addCell_eq cell options m).
  destruct (negb (has m (id cell))
            && negb (existsb (String.eqb (id cell)) (addings m)))%bool eqn:G.
  - cbv zeta.
    match goal with
    | |- (if (negb (has ?m' _) && _)%bool then _ else _) = _ =>
        assert (H : has m' (id cell) = true)
    end.
    { unfold has at 1. simpl.
      apply has_eachChild_mono.
      pose proof (has_collection_add_self
                    (prepareCell cell options
                       (set_addings (id cell :: addings m) m))
                    options
                    (set_addings (id cell :: addings m) m)) as Hs.
      rewrite id_prepareCell in Hs. exact Hs. }
    rewrite H. reflexivity.
  - rewrite G. reflexivity.
Qed.

End AddFacts.

(** C8. [addCell] is idempotent: adding a cell a second time, right after
    adding it, leaves the model exactly as the first call left it. The
    second call receives the same object, with whatever [zIndex] and [model]
    the first call left on it. *)
Theorem addCell_idempotent (cell : Cell) (z' : option Z) (md' : option ModelRef)
  (options options' : Options.t) (m : Model.t) :
  Model.addCell (mkCell (id cell) (kind cell) z' md' (children cell)) options'
    (Model.addCell cell options m)
  = Model.addCell cell options m.
Proof. now apply AddFacts.addCell_again. Qed.

(** ** Loops in the outcome monad *)

Module OutcomeFacts.

Lemma forEach_preserves {A S : Type} (P : S -> Prop) (body : A -> S -> Outcome S)
  (xs : list A) :
  (forall x s s', In x xs -> P s -> body x s = Done s' -> P s') ->
  forall s s', P s -> forEach xs body s = Done s' -> P s'.
Proof.
  induction xs as [|x xs IH]; intros Hbody s s' Hs H; simpl in H.
  - now inversion H; subst.
  - destruct (body x s) as [s1| |] eqn:E; simpl in H; try discriminate.
    apply (IH) with (s := s1); auto.
    + intros y t t' Hy. apply Hbody. now right.
    + eapply Hbody; eauto. now left.
Qed.

Lemma forEach_returns {A S : Type} (P : S -> Prop) (body : A -> S -> Outcome S)
  (xs : list A) :
  (forall x s, In x xs -> P s -> exists s', body x s = Done s' /\ P s') ->
  forall s, P s -> exists s', forEach xs body s = Done s' /\ P s'.
Proof.
  induction xs as [|x xs IH]; intros Hbody s Hs; simpl.
  - eauto.
  - destruct (Hbody x s (or_introl eq_refl) Hs) as [s1 [E H1]].
    rewrite E. simpl. apply IH; auto.
    intros y t Hy. apply Hbody. now right.
Qed.

Lemma forEach_not_diverging {A S : Type} (body : A -> S -> Outcome S) (xs : list A) :
  (forall x s, In x xs -> body x s <> Diverges) ->
  forall s, forEach xs body s <> Diverges.
Proof.
  induction xs as [|x xs IH]; intros Hbody s; simpl; [discriminate|].
  destruct (body x s) as [s1| |] eqn:E; simpl.
  - apply IH. intros y t Hy. apply Hbody. now right.
  - discriminate.
  - exfalso. eapply Hbody; eauto. now left.
Qed.

End OutcomeFacts.

(** ** Connected edges without [indirect] *)

Module ConnectedFacts.

Import Model.

Lemma collect_direct_returns (fuel : nat) (m : t) (incoming outgoing : bool)
  (cell : Cell) (isOutgoing : bool) (st : Collected) :
  returns (collect (S fuel) m false incoming outgoing cell isOutgoing st).
Proof.
  unfold returns.
  destruct isOutgoing; simpl;
    match goal with
    | |- context [forEach ?xs ?body ?s0] =>
        destruct (OutcomeFacts.forEach_returns (fun _ => True) body xs)
          with (s := s0) as [st' [E _]]; auto
    end;
    try (intros x [result cache] _ _;
         destruct (KeyValue.truthy cache (id x)); eauto);
    rewrite E; simpl; eauto.
Qed.

Lemma getConnectedEdges_direct_returns (fuel : nat) (m : t) (cell : string + Cell)
  (incoming outgoing : option bool) :
  returns (getConnectedEdges (S fuel) m cell
             (GetConnectedEdgesOptions.mk incoming outgoing false false false)).
Proof.
  unfold getConnectedEdges, returns.
  destruct (match cell with inl k => getCell m k | inr c => Some c end) as [node|];
    [|eauto].
  destruct incoming as [[|]|], outgoing as [[|]|]; cbn -[collect];
    repeat match goal with
      | |- context [collect (S fuel) m false ?i ?o ?c ?b ?st] =>
          let st' := fresh "st" in
          let E := fresh "E" in
          destruct (collect_direct_returns fuel m i o c b st) as [st' E];
          rewrite E; cbn -[collect]
      end; eauto.
Qed.

End ConnectedFacts.

(** ** Removal *)

Module RemovalFacts.

Import Model Removal.

Lemma id_setSource (p : Terminal) (x : Cell) : id (Edge.setSource p x) = id x.
Proof. unfold Edge.setSource. destruct (kind x); reflexivity. Qed.

Lemma id_setTarget (p : Terminal) (x : Cell) : id (Edge.setTarget p x) = id x.
Proof. unfold Edge.setTarget. destruct (kind x); reflexivity. Qed.

Lemma isEdge_setSource (p : Terminal) (x : Cell) :
  CellOps.isEdge (Edge.setSource p x) = CellOps.isEdge x.
Proof.
  unfold Edge.setSource, CellOps.isEdge. destruct (kind x) eqn:E; simpl; now rewrite ?E.
Qed.

Lemma isEdge_setTarget (p : Terminal) (x : Cell) :
  CellOps.isEdge (Edge.setTarget p x) = CellOps.isEdge x.
Proof.
  unfold Edge.setTarget, CellOps.isEdge. destruct (kind x) eqn:E; simpl; now rewrite ?E.
Qed.

Section Steps.

Variable fuel : nat.
Variable Cell_remove : Cell -> Options.t -> t -> Outcome t.
Variable P : t -> Prop.
Hypothesis P_stable : stable P.
Hypothesis Cell_remove_keeps :
  forall cell options m m', P m -> Cell_remove cell options m = Done m' -> P m'.

Lemma removeEdges_keeps cell options m m' :
  P m -> removeEdges_with fuel Cell_remove cell options m = Done m' -> P m'.
Proof.
  unfold removeEdges_with. intros Hm H.
  destruct (getConnectedEdges fuel m cell GetConnectedEdgesOptions.none)
    as [edges| |]; simpl in H; try discriminate.
  revert H. apply OutcomeFacts.forEach_preserves; auto.
  intros x s s' _. apply Cell_remove_keeps.
Qed.

Lemma disconnectEdges_keeps cell options m m' :
  P m -> disconnectEdges_with fuel cell options m = Done m' -> P m'.
Proof.
  unfold disconnectEdges_with. intros Hm H.
  destruct (getConnectedEdges fuel m cell GetConnectedEdgesOptions.none)
    as [edges| |]; simpl in H; try discriminate.
  revert H. apply OutcomeFacts.forEach_preserves; auto.
  intros x s s' _ Hs E. inversion E; subst s'; clear E.
  set (e := match getCell s (id x) with Some e => e | None => x end).
  assert (H1 : P (match getSourceCell s e with
                  | Some sourceCell =>
                      if String.eqb (id sourceCell)
                           (match cell with inl k => k | inr c => id c end)
                      then set_collection
                             (Collection.update (id e)
                                (Edge.setSource (TerminalPoint 0 0)) (collection s)) s
                      else s
                  | None => s
                  end)).
  { destruct (getSourceCell s e); auto.
    destruct (String.eqb _ _); auto.
    apply (stable_update P P_stable); auto using id_setSource, isEdge_setSource. }
  revert H1. generalize (match getSourceCell s e with
                  | Some sourceCell =>
                      if String.eqb (id sourceCell)
                           (match cell with inl k => k | inr c => id c end)
                      then set_collection
                             (Collection.update (id e)
                                (Edge.setSource (TerminalPoint 0 0)) (collection s)) s
                      else s
                  | None => s
                  end).
  intros s1 H1.
  destruct (getTargetCell s e); auto.
  destruct (String.eqb _ _); auto.
  apply (stable_update P P_stable); auto using id_setTarget, isEdge_setTarget.
Qed.

Lemma afterCellRemoved_keeps cell options m m' cell' :
  P m -> afterCellRemoved fuel Cell_remove cell options m = Done (m', cell') -> P m'.
Proof.
  unfold afterCellRemoved. intros Hm H.
  match type of H with
  | bind ?c _ = _ => destruct c as [m1| |] eqn:E; simpl in H; try discriminate
  end.
  assert (H1 : P m1).
  { destruct (negb (Options.clear options)).
    - destruct (Options.disconnectEdges options).
      + eapply disconnectEdges_keeps; eauto.
      + eapply removeEdges_keeps; eauto.
    - now inversion E; subst. }
  destruct (model cell) as [r|]; [destruct (Nat.eqb r (self m1))|];
    inversion H; subst; exact H1.
Qed.

Lemma on_collection_removed_keeps held options m m' :
  Collection.get (collection m) (id held) = Some held ->
  P m ->
  on_collection_removed fuel Cell_remove held options
    (set_collection (Collection.remove_id (id held) (collection m)) m) = Done m' ->
  P m'.
Proof.
  intros Hheld Hm H. unfold on_collection_removed, onCellRemoved in H.
  match type of H with
  | bind ?c _ = _ => destruct c as [[m1 cell1]| |] eqn:E; simpl in H; try discriminate
  end.
  assert (H1 : P m1).
  { pose proof (stable_dropped P P_stable held m Hheld Hm) as Hd.
    eapply afterCellRemoved_keeps; [exact Hd|exact E]. }
  destruct (CellOps.isNode cell1); [|destruct (CellOps.isEdge cell1)];
    inversion H; subst; repeat apply (stable_notify P P_stable); exact H1.
Qed.

Lemma removeCell_with_keeps obj options m m' :
  P m -> removeCell_with fuel Cell_remove obj options m = Done m' -> P m'.
Proof.
  unfold removeCell_with, collection_remove, Collection.remove. intros Hm H.
  destruct (match obj with inl k => getCell m k | inr c => Some c end) as [cell|];
    [|now inversion H; subst].
  destruct (has m (id cell)); [|now inversion H; subst].
  destruct (Collection.get (collection m) (id cell)) as [held|] eqn:E;
    [|inversion H; subst; now destruct m].
  pose proof (CollectionFacts.get_some _ _ _ E) as [_ Hid].
  rewrite <- Hid in H, E.
  eapply on_collection_removed_keeps; eauto.
Qed.

End Steps.

Lemma removeCell_keeps (P : t -> Prop) :
  stable P ->
  forall fuel obj options m m',
    P m -> removeCell fuel obj options m = Done m' -> P m'.
Proof.
  intros HP. induction fuel as [|fuel IH]; intros obj options m m' Hm H;
    simpl in H; [discriminate|].
  eapply removeCell_with_keeps; eauto.
  intros cell o s s'. apply IH.
Qed.

(** The collection never grows during a removal. *)
Lemma stable_length (n : nat) : stable (fun m => List.length (collection m) <= n).
Proof.
  split.
  - intros name args m H. now rewrite BatchFacts.collection_notify.
  - intros held m _ H. unfold dropped.
    assert (L : List.length (Collection.remove_id (id held) (collection m)) <= n).
    { pose proof (CollectionFacts.length_remove_id (id held) (collection m)). lia. }
    destruct (CellOps.isEdge held); exact L.
  - intros k f m _ _ H. simpl. unfold Collection.update. now rewrite length_map.
Qed.

Lemma removeCell_length fuel obj options m m' :
  removeCell fuel obj options m = Done m' ->
  List.length (collection m') <= List.length (collection m).
Proof.
  apply (removeCell_keeps _ (stable_length (List.length (collection m)))).
  apply Nat.le_refl.
Qed.

Section Totality.

Variable fuel : nat.
Variable Cell_remove : Cell -> Options.t -> t -> Outcome t.
Hypothesis Cell_remove_returns :
  forall cell options m,
    List.length (collection m) < fuel ->
    exists m', Cell_remove cell options m = Done m'
               /\ List.length (collection m') <= List.length (collection m).

Lemma afterCellRemoved_returns cell options m :
  0 < fuel -> List.length (collection m) < fuel ->
  returns (afterCellRemoved fuel Cell_remove cell options m).
Proof.
  intros Hpos Hlen. unfold afterCellRemoved.
  assert (H : exists m1,
             (if negb (Options.clear options)
              then if Options.disconnectEdges options
                   then disconnectEdges_with fuel (inr cell) options m
                   else removeEdges_with fuel Cell_remove (inr cell) options m
              else Done m) = Done m1).
  { destruct (negb (Options.clear options)); [|eauto].
    destruct fuel as [|fuel'] eqn:Ef; [lia|].
    destruct (Options.disconnectEdges options).
    - unfold disconnectEdges_with.
      destruct (ConnectedFacts.getConnectedEdges_direct_returns fuel' m (inr cell)
                  None None) as [edges E].
      unfold GetConnectedEdgesOptions.none. rewrite E. simpl.
      match goal with
      | |- context [forEach ?xs ?body ?s0] =>
          destruct (OutcomeFacts.forEach_returns (fun _ => True) body xs)
            with (s := s0) as [s' [E' _]]; eauto
      end.
    - unfold removeEdges_with.
      destruct (ConnectedFacts.getConnectedEdges_direct_returns fuel' m (inr cell)
                  None None) as [edges E].
      unfold GetConnectedEdgesOptions.none. rewrite E. simpl.
      destruct (OutcomeFacts.forEach_returns
                  (fun s => List.length (collection s) < S fuel')
                  (fun edge m => Cell_remove edge options m) edges)
        with (s := m) as [s' [E' _]]; eauto.
      intros x s _ Hs. destruct (Cell_remove_returns x options s Hs) as [s' [E1 E2]].
      exists s'. split; [exact E1|lia]. }
  destruct H as [m1 ->]. simpl. unfold returns.
  destruct (model cell) as [r|]; [destruct (Nat.eqb r (self m1))|]; eauto.
Qed.

Lemma removeCell_with_returns obj options m :
  List.length (collection m) <= fuel ->
  returns (removeCell_with fuel Cell_remove obj options m).
Proof.
  intros Hlen. unfold removeCell_with, collection_remove, Collection.remove, returns.
  destruct (match obj with inl k => getCell m k | inr c => Some c end) as [cell|];
    [|eauto].
  destruct (has m (id cell)) eqn:Hhas; [|eauto].
  destruct (Collection.get (collection m) (id cell)) as [held|] eqn:E; [|eauto].
  pose proof (CollectionFacts.length_remove_id_lt _ _ Hhas) as Hlt.
  unfold on_collection_removed, onCellRemoved.
  match goal with
  | |- context [afterCellRemoved fuel Cell_remove ?c ?o ?s] =>
      destruct (afterCellRemoved_returns c o s) as [[m1 cell1] E1]
  end.
  - lia.
  - destruct (CellOps.isEdge held); simpl; lia.
  - rewrite E1. simpl.
    destruct (CellOps.isNode cell1); [|destruct (CellOps.isEdge cell1)]; eauto.
Qed.

End Totality.

(** With more fuel than cells held, a removal returns. *)
Lemma removeCell_returns fuel obj options m :
  List.length (collection m) < fuel -> returns (removeCell fuel obj options m).
Proof.
  revert obj options m.
  induction fuel as [|fuel IH]; intros obj options m H; [lia|].
  simpl. apply removeCell_with_returns; [|lia].
  intros cell o s Hs. destruct (IH (inr cell) o s Hs) as [s' E].
  exists s'. split; [exact E|]. eapply removeCell_length; eauto.
Qed.

End RemovalFacts.

(** ** The membership partition *)

Module PartitionFacts.

Import Model Partition.

Lemma unique_by_id (c : Collection.t) (x y : Cell) :
  NoDup (Collection.ids c) -> In x c -> In y c -> id x = id y -> x = y.
Proof.
  unfold Collection.ids. induction c as [|z c IH]; simpl; [tauto|].
  intros Hnd. inversion Hnd as [|? ? Hz Hc]; subst.
  intros [Hx|Hx] [Hy|Hy] E; subst; auto.
  - exfalso. apply Hz. rewrite E. now apply in_map.
  - exfalso. apply Hz. rewrite <- E. now apply in_map.
Qed.

Lemma consistent_partitioned (m : t) : consistent m -> partitioned m.
Proof.
  intros (Hnd & Hn & He). split.
  - intros k H1 H2. apply Hn in H1. apply He in H2.
    destruct H1 as (c1 & I1 & E1 & K1), H2 as (c2 & I2 & E2 & K2).
    assert (c1 = c2) by (eapply unique_by_id; eauto; congruence).
    subst. congruence.
  - intros k. rewrite Hn, He. unfold getCells, Collection.toArray, Collection.ids.
    rewrite in_map_iff. split.
    + intros [(c & I & E & _)|(c & I & E & _)]; exists c; auto.
    + intros (c & E & I). destruct (CellOps.isEdge c) eqn:K; [right|left];
        exists c; auto.
Qed.

Lemma consistent_classified (m : t) : consistent m -> classified m.
Proof.
  intros (Hnd & Hn & He) c Hc. unfold getCells, Collection.toArray in Hc.
  destruct (CellOps.isEdge c) eqn:K; split.
  - apply He. eauto.
  - intros H. apply Hn in H. destruct H as (c' & I & E & K').
    assert (c' = c) by (eapply unique_by_id; eauto). subst. congruence.
  - apply Hn. eauto.
  - intros H. apply He in H. destruct H as (c' & I & E & K').
    assert (c' = c) by (eapply unique_by_id; eauto). subst. congruence.
Qed.

Lemma NoDup_ids_filter (p : Cell -> bool) (c : Collection.t) :
  NoDup (Collection.ids c) -> NoDup (Collection.ids (filter p c)).
Proof.
  unfold Collection.ids. induction c as [|x c IH]; simpl; auto.
  intros H. inversion H as [|? ? Hx Hc]; subst.
  destruct (p x); simpl; auto.
  constructor; auto. intros Hin. apply Hx.
  apply in_map_iff in Hin. destruct Hin as (y & E & I).
  apply filter_In in I. apply in_map_iff. exists y. tauto.
Qed.

Lemma consistent_ext (m m' : t) :
  collection m' = collection m -> nodes m' = nodes m -> edges m' = edges m ->
  consistent m -> consistent m'.
Proof.
  unfold consistent, nodeIds, edgeIds. intros -> -> ->. auto.
Qed.

Lemma consistent_notify name args m : consistent m -> consistent (notify name args m).
Proof.
  apply consistent_ext;
    auto using BatchFacts.collection_notify, BatchFacts.nodes_notify,
               BatchFacts.edges_notify.
Qed.

Lemma consistent_dropped held m :
  Collection.get (collection m) (id held) = Some held ->
  consistent m -> consistent (Removal.dropped held m).
Proof.
  intros Hget (Hnd & Hn & He).
  apply CollectionFacts.get_some in Hget. destruct Hget as [Hin _].
  unfold Removal.dropped, consistent, nodeIds, edgeIds.
  destruct (CellOps.isEdge held) eqn:K; simpl; (split; [|split]).
  - now apply NoDup_ids_filter.
  - intros k. fold (nodeIds m). rewrite Hn. split.
    + intros (c & I & E & Kc). exists c. repeat split; auto.
      apply CollectionFacts.in_remove_id. split; auto.
      intros Eid. assert (c = held) by (eapply unique_by_id; eauto). congruence.
    + intros (c & I & E & Kc). apply CollectionFacts.in_remove_id in I.
      exists c. tauto.
  - intros k. rewrite KeyValueFacts.in_keys_delete. fold (edgeIds m). rewrite He.
    split.
    + intros (Hk & c & I & E & Kc). exists c. repeat split; auto.
      apply CollectionFacts.in_remove_id. split; auto. congruence.
    + intros (c & I & E & Kc). apply CollectionFacts.in_remove_id in I.
      split; [destruct I; congruence|]. exists c. tauto.
  - now apply NoDup_ids_filter.
  - intros k. rewrite KeyValueFacts.in_keys_delete. fold (nodeIds m). rewrite Hn.
    split.
    + intros (Hk & c & I & E & Kc). exists c. repeat split; auto.
      apply CollectionFacts.in_remove_id. split; auto. congruence.
    + intros (c & I & E & Kc). apply CollectionFacts.in_remove_id in I.
      split; [destruct I; congruence|]. exists c. tauto.
  - intros k. fold (edgeIds m). rewrite He. split.
    + intros (c & I & E & Kc). exists c. repeat split; auto.
      apply CollectionFacts.in_remove_id. split; auto.
      intros Eid. assert (c = held) by (eapply unique_by_id; eauto). congruence.
    + intros (c & I & E & Kc). apply CollectionFacts.in_remove_id in I.
      exists c. tauto.
Qed.

Lemma consistent_update k f m :
  (forall x, id (f x) = id x) ->
  (forall x, CellOps.isEdge (f x) = CellOps.isEdge x) ->
  consistent m ->
  consistent (set_collection (Collection.update k f (collection m)) m).
Proof.
  intros Hid Hk (Hnd & Hn & He).
  assert (Hsame : forall x, id (if String.eqb (id x) k then f x else x) = id x
                            /\ CellOps.isEdge (if String.eqb (id x) k then f x else x)
                               = CellOps.isEdge x).
  { intros x. destruct (String.eqb (id x) k); auto. }
  unfold consistent, nodeIds, edgeIds. simpl. split; [|split].
  - now rewrite CollectionFacts.ids_update.
  - intros k0. fold (nodeIds m). rewrite Hn. split.
    + intros (c & I & E & Kc). eexists. split; [apply CollectionFacts.in_update; eauto|].
      destruct (Hsame c). split; congruence.
    + intros (c & I & E & Kc). apply CollectionFacts.in_update in I.
      destruct I as (x & I & ->). destruct (Hsame x). exists x.
      repeat split; auto; congruence.
  - intros k0. fold (edgeIds m). rewrite He. split.
    + intros (c & I & E & Kc). eexists. split; [apply CollectionFacts.in_update; eauto|].
      destruct (Hsame c). split; congruence.
    + intros (c & I & E & Kc). apply CollectionFacts.in_update in I.
      destruct I as (x & I & ->). destruct (Hsame x). exists x.
      repeat split; auto; congruence.
Qed.

Lemma stable_consistent : Removal.stable consistent.
Proof.
  split.
  - apply consistent_notify.
  - apply consistent_dropped.
  - apply consistent_update.
Qed.

Lemma insert_at_perm (p : nat) (x : Cell) (c : Collection.t) :
  Permutation (Collection.insert_at p x c) (x :: c).
Proof.
  unfold Collection.insert_at. rewrite <- Permutation_middle.
  now rewrite firstn_skipn.
Qed.

Lemma add_perm (x : Cell) (options : Options.t) (c : Collection.t) :
  Collection.has c (id x) = false ->
  Permutation (fst (Collection.add x options c)) (x :: c).
Proof.
  intros H. unfold Collection.add. rewrite H. simpl.
  rewrite CollectionFacts.sort_perm.
  destruct (Options.position options).
  - apply insert_at_perm.
  - rewrite Permutation_app_comm. reflexivity.
Qed.

Lemma consistent_onCellAdded (x : Cell) (c' : Collection.t) (m : t) :
  Collection.has (collection m) (id x) = false ->
  Permutation c' (x :: collection m) ->
  consistent m ->
  consistent (onCellAdded x (set_collection c' m)).
Proof.
  intros Hhas Hperm (Hnd & Hn & He).
  assert (Hin : forall y, In y c' <-> y = x \/ In y (collection m)).
  { intros y. split; intros H.
    - apply (Permutation_in _ Hperm) in H. destruct H; auto.
    - apply (Permutation_in _ (Permutation_sym Hperm)). destruct H; [left|right]; auto. }
  assert (Hnd' : NoDup (Collection.ids c')).
  { apply (Permutation_NoDup (l := Collection.ids (x :: collection m))).
    - unfold Collection.ids. apply Permutation_map. now symmetry.
    - simpl. constructor; auto. now apply CollectionFacts.has_false. }
  unfold onCellAdded, consistent, nodeIds, edgeIds.
  destruct (CellOps.isEdge x) eqn:K; simpl; (split; [exact Hnd'|split]); intros k.
  - fold (nodeIds m). rewrite Hn. split.
    + intros (c & I & E & Kc). exists c. rewrite Hin. auto.
    + intros (c & I & E & Kc). apply Hin in I. destruct I as [->|I]; [congruence|].
      exists c. auto.
  - rewrite KeyValueFacts.in_keys_set. fold (edgeIds m). rewrite He. split.
    + intros [->|(c & I & E & Kc)]; [exists x|exists c]; rewrite Hin; auto.
    + intros (c & I & E & Kc). apply Hin in I. destruct I as [->|I]; [now left|].
      right. exists c. auto.
  - rewrite KeyValueFacts.in_keys_set. fold (nodeIds m). rewrite Hn. split.
    + intros [->|(c & I & E & Kc)]; [exists x|exists c]; rewrite Hin; auto.
    + intros (c & I & E & Kc). apply Hin in I. destruct I as [->|I]; [now left|].
      right. exists c. auto.
  - fold (edgeIds m). rewrite He. split.
    + intros (c & I & E & Kc). exists c. rewrite Hin. auto.
    + intros (c & I & E & Kc). apply Hin in I. destruct I as [->|I]; [congruence|].
      exists c. auto.
Qed.

Lemma consistent_collection_add (x : Cell) (options : Options.t) (m : t) :
  consistent m -> consistent (collection_add x options m).
Proof.
  intros H. unfold collection_add.
  destruct (Collection.has (collection m) (id x)) eqn:Hhas.
  - unfold Collection.add. rewrite Hhas. revert H. apply consistent_ext; reflexivity.
  - pose proof (add_perm x options _ Hhas) as Hperm.
    unfold Collection.add in *. rewrite Hhas in *. simpl in Hperm.
    unfold on_collection_added.
    match goal with
    | |- context [onCellAdded x (set_collection ?c' m)] =>
        pose proof (consistent_onCellAdded x c' m Hhas Hperm H) as H'
    end.
    destruct (CellOps.isNode x); [|destruct (CellOps.isEdge x)];
      repeat apply consistent_notify; exact H'.
Qed.

Lemma consistent_addCell (cell : Cell) :
  forall options m, consistent m -> consistent (addCell cell options m).
Proof.
  induction cell as [i kd z md cs IH] using Cell_subtree_ind.
  intros options m H. rewrite AddFacts.addCell_eq.
  destruct (_ && _)%bool; [|exact H]. cbv zeta.
  match goal with
  | |- consistent (set_addings _ ?m3) =>
      apply (consistent_ext m3); try reflexivity
  end.
  simpl children.
  match goal with
  | |- consistent (eachChild options cs ?m2) =>
      assert (H2 : consistent m2);
      [apply consistent_collection_add; revert H; apply consistent_ext; reflexivity
      |generalize dependent m2]
  end.
  clear H. induction IH as [|c cs Hc _ IHcs]; intros m2 H2; simpl; auto.
Qed.

Lemma consistent_startBatch name data m :
  consistent m -> consistent (startBatch name data m).
Proof.
  intros H. apply consistent_notify. revert H. apply consistent_ext; reflexivity.
Qed.

Lemma consistent_stopBatch name data m :
  consistent m -> consistent (stopBatch name data m).
Proof.
  intros H. apply consistent_notify. revert H. apply consistent_ext; reflexivity.
Qed.

Lemma consistent_addCells_loop cells :
  forall localOptions m,
    consistent m -> consistent (fst (addCells_loop cells localOptions m)).
Proof.
  induction cells as [|c cells IH]; intros lo m H; simpl; auto.
  apply IH. now apply consistent_addCell.
Qed.

Lemma consistent_addCells cells options m :
  consistent m -> consistent (addCells cells options m).
Proof.
  intros H. unfold addCells. destruct (_ =? _)%Z; [exact H|].
  match goal with
  | |- context [addCells_loop cells ?lo ?m0] =>
      pose proof (consistent_addCells_loop cells lo m0
                    (consistent_startBatch _ _ _ H)) as H';
      destruct (addCells_loop cells lo m0) as [m1 lo1]
  end.
  now apply consistent_stopBatch.
Qed.

Lemma reset_NoDup (cells : list Cell) : NoDup (Collection.ids (Collection.reset cells)).
Proof.
  unfold Collection.reset.
  apply (Permutation_NoDup (Permutation_sym (CollectionFacts.ids_sort_perm _))).
  assert (G : forall l acc, NoDup (Collection.ids acc) ->
              NoDup (Collection.ids
                       (fold_left (fun c x => if Collection.has c (id x) then c
                                              else c ++ [x]) l acc))).
  { induction l as [|x l IH]; intros acc H; simpl; auto.
    apply IH. destruct (Collection.has acc (id x)) eqn:E; auto.
    unfold Collection.ids. rewrite map_app. simpl.
    apply (Permutation_NoDup (l := id x :: map id acc)).
    - rewrite Permutation_app_comm. reflexivity.
    - constructor; auto. now apply CollectionFacts.has_false. }
  apply G. constructor.
Qed.

Lemma onReset_spec (cells : list Cell) :
  forall m,
    collection (fold_left (fun m cell => onCellAdded cell m) cells m) = collection m
    /\ (forall k, In k (nodeIds (fold_left (fun m cell => onCellAdded cell m) cells m))
                  <-> In k (nodeIds m)
                      \/ exists c, In c cells /\ id c = k /\ CellOps.isEdge c = false)
    /\ (forall k, In k (edgeIds (fold_left (fun m cell => onCellAdded cell m) cells m))
                  <-> In k (edgeIds m)
                      \/ exists c, In c cells /\ id c = k /\ CellOps.isEdge c = true).
Proof.
  induction cells as [|x cells IH]; intros m; simpl.
  - split; [reflexivity|]. split; intros k; split; auto;
      intros [H|(c & [] & _)]; exact H.
  - destruct (IH (onCellAdded x m)) as (Hc & Hn & He). split; [|split].
    + rewrite Hc. unfold onCellAdded. destruct (CellOps.isEdge x); reflexivity.
    + intros k. rewrite Hn. unfold onCellAdded, nodeIds.
      destruct (CellOps.isEdge x) eqn:K; simpl.
      * split.
        -- intros [H|(c & I & E)]; [now left|right; exists c; tauto].
        -- intros [H|(c & [->|I] & E & Kc)]; [now left|congruence|right; exists c; tauto].
      * rewrite KeyValueFacts.in_keys_set. split.
        -- intros [[->|H]|(c & I & E)];
             [right; exists x; tauto|now left|right; exists c; tauto].
        -- intros [H|(c & [->|I] & E & Kc)];
             [left; now right|left; left; congruence|right; exists c; tauto].
    + intros k. rewrite He. unfold onCellAdded, edgeIds.
      destruct (CellOps.isEdge x) eqn:K; simpl.
      * rewrite KeyValueFacts.in_keys_set. split.
        -- intros [[->|H]|(c & I & E)];
             [right; exists x; tauto|now left|right; exists c; tauto].
        -- intros [H|(c & [->|I] & E & Kc)];
             [left; now right|left; left; congruence|right; exists c; tauto].
      * split.
        -- intros [H|(c & I & E)]; [now left|right; exists c; tauto].
        -- intros [H|(c & [->|I] & E & Kc)]; [now left|congruence|right; exists c; tauto].
Qed.

(** [resetCells] re-establishes the invariant whatever the state was. *)
Lemma consistent_resetCells cells options m : consistent (resetCells cells options m).
Proof.
  unfold resetCells, on_collection_reseted. apply consistent_notify.
  unfold onReset, Collection.toArray.
  set (items := map (fun cell => prepareCell cell options m) cells).
  set (m0 := set_edges KeyValue.empty
               (set_nodes KeyValue.empty
                  (set_collection (Collection.reset items) m))).
  destruct (onReset_spec (Collection.reset items) m0) as (Hc & Hn & He).
  unfold consistent. simpl collection in *. rewrite Hc. simpl.
  split; [apply reset_NoDup|]. split; intros k.
  - rewrite Hn. simpl. tauto.
  - rewrite He. simpl. tauto.
Qed.

Lemma consistent_removeCell fuel obj options m m' :
  consistent m -> removeCell fuel obj options m = Done m' -> consistent m'.
Proof. apply RemovalFacts.removeCell_keeps, stable_consistent. Qed.

Lemma consistent_executeBatch name execute data m m' :
  (forall s s', consistent s -> execute s = Done s' -> consistent s') ->
  consistent m -> executeBatch name execute data m = Done m' -> consistent m'.
Proof.
  intros Hex H E. unfold executeBatch in E.
  destruct (execute (startBatch name data m)) as [s| |] eqn:E1; simpl in E;
    try discriminate.
  inversion E; subst. apply consistent_stopBatch.
  eapply Hex; [|exact E1]. now apply consistent_startBatch.
Qed.

Lemma consistent_removeCells fuel cells options m m' :
  consistent m -> removeCells fuel cells options m = Done m' -> consistent m'.
Proof.
  intros H E. unfold removeCells in E.
  destruct cells as [|c cells]; [now inversion E; subst|].
  revert E. apply consistent_executeBatch; auto.
  intros s s'. apply OutcomeFacts.forEach_preserves.
  intros x t t' _. apply consistent_removeCell.
Qed.

Lemma consistent_clear Array_sort fuel options m m' :
  consistent m -> clear Array_sort fuel options m = Done m' -> consistent m'.
Proof.
  intros H E. unfold clear in E.
  destruct (Nat.eqb _ 0); [now inversion E; subst|].
  revert E. apply consistent_executeBatch; auto.
  intros s s'. apply OutcomeFacts.forEach_preserves.
  intros x t t' _. apply consistent_removeCell.
Qed.

Lemma consistent_create this : consistent (create this []).
Proof.
  unfold consistent, create, nodeIds, edgeIds. simpl.
  split; [constructor|]. split; intros k; split;
    try tauto; intros (c & [] & _).
Qed.

Lemma reachable_consistent Array_sort this m :
  reachable Array_sort this m -> consistent m.
Proof.
  induction 1;
    eauto using consistent_create, consistent_addCell, consistent_addCells,
                consistent_removeCell, consistent_removeCells,
                consistent_resetCells, consistent_clear,
                consistent_startBatch, consistent_stopBatch.
Qed.

End PartitionFacts.



(** The removals of a reachable state are not vacuous: with more fuel than
    cells held, [removeCell] returns. *)
Lemma removeCell_total (fuel : nat) (obj : string + Cell) (options : Options.t)
  (m : Model.t) :
  List.length (Model.collection m) < fuel ->
  returns (Model.removeCell fuel obj options m).
Proof. apply RemovalFacts.removeCell_returns. Qed.

(** A model constructed over initial cells is not yet among these states:
    its collection is filled before [setup] subscribes, and its caches stay
    empty until the next [resetCells]. *)
Remark create_with_cells : ~ Partition.partitioned (Model.create 0 [Examples.node "A"]).
Proof.
  intros [_ H]. specialize (H "A"). simpl in H.
  destruct H as [_ H]. destruct H as [[]|[]]. now left.
Qed.

(** ** Edge clean-up of a removed cell *)

Module DisconnectFacts.

Import Model.

Lemma resolved_is_held (m : t) (e c : Cell) :
  getSourceCell m e = Some c \/ getTargetCell m e = Some c ->
  has m (id c) = true.
Proof.
  unfold getSourceCell, getTargetCell, getCell, has.
  intros [H|H];
    [destruct (Edge.getSourceCellId e)|destruct (Edge.getTargetCellId e)];
    try discriminate;
    pose proof (CollectionFacts.get_some _ _ _ H) as [_ E];
    apply CollectionFacts.get_has in H; now rewrite E.
Qed.

(** Once the cell is gone from the collection, no terminal resolves to it
    any more, and [disconnectEdges] changes nothing. *)
Lemma disconnectEdges_absent (fuel : nat) (cell : string + Cell)
  (options : Options.t) (m m' : t) :
  has m (match cell with inl k => k | inr c => id c end) = false ->
  disconnectEdges fuel cell options m = Done m' ->
  m' = m.
Proof.
  intros Habs H. unfold disconnectEdges, disconnectEdges_with in H.
  destruct (getConnectedEdges fuel m cell GetConnectedEdgesOptions.none)
    as [edges| |]; simpl in H; try discriminate.
  revert H. apply (OutcomeFacts.forEach_preserves (fun s => s = m)); auto.
  intros x s s' _ -> E.
  set (e := match getCell m (id x) with Some e => e | None => x end) in E.
  assert (Hs : forall c, getSourceCell m e = Some c ->
                         String.eqb (id c)
                           (match cell with inl k => k | inr c => id c end) = false).
  { intros c Hc. apply String.eqb_neq. intros Eid.
    pose proof (resolved_is_held m e c (or_introl Hc)). congruence. }
  assert (Ht : forall c, getTargetCell m e = Some c ->
                         String.eqb (id c)
                           (match cell with inl k => k | inr c => id c end) = false).
  { intros c Hc. apply String.eqb_neq. intros Eid.
    pose proof (resolved_is_held m e c (or_intror Hc)). congruence. }
  destruct (getSourceCell m e) as [sc|]; [rewrite (Hs sc eq_refl) in E|];
    (destruct (getTargetCell m e) as [tc|]; [rewrite (Ht tc eq_refl) in E|]);
    now inversion E.
Qed.

Lemma has_remove_id (k : string) (c : Collection.t) :
  Collection.has (Collection.remove_id k c) k = false.
Proof.
  apply CollectionFacts.has_false. unfold Collection.ids. intros H.
  apply in_map_iff in H. destruct H as (x & E & I).
  apply CollectionFacts.in_remove_id in I. tauto.
Qed.

(** So a removal under [disconnectEdges: true] only drops the cell: every
    edge that was attached to it is kept, with its terminals as they were. *)
Lemma removeCell_disconnect_only_drops (fuel : nat) (m m' : t) (cell held : Cell)
  (options : Options.t) :
  Options.clear options = false ->
  Options.disconnectEdges options = true ->
  Collection.get (collection m) (id cell) = Some held ->
  removeCell (S fuel) (inr cell) options m = Done m' ->
  collection m' = Collection.remove_id (id held) (collection m).
Proof.
  intros Hclear Hdis Hget H. simpl in H.
  unfold removeCell_with, has, collection_remove, Collection.remove in H.
  rewrite (CollectionFacts.get_has _ _ _ Hget), Hget in H.
  pose proof (CollectionFacts.get_some _ _ _ Hget) as [_ Hid].
  rewrite <- Hid in H.
  unfold on_collection_removed, onCellRemoved, afterCellRemoved in H.
  rewrite Hclear, Hdis in H. cbn [negb] in H.
  match type of H with
  | context [disconnectEdges_with fuel (inr held) options ?m2] =>
      destruct (disconnectEdges_with fuel (inr held) options m2) as [m3| |] eqn:E;
      cbn [bind] in H; try discriminate;
      assert (E3 : m3 = m2);
      [apply (disconnectEdges_absent fuel (inr held) options m2 m3); [|exact E]|]
  end.
  - unfold has. destruct (CellOps.isEdge held); apply has_remove_id.
  - subst m3.
    destruct (model held) as [r|]; [destruct (Nat.eqb r _)|]; cbn [bind] in H;
      (destruct (CellOps.isNode _); [|destruct (CellOps.isEdge _)]);
      inversion H; subst m'; rewrite ?BatchFacts.collection_notify;
      destruct (CellOps.isEdge held); reflexivity.
Qed.

End DisconnectFacts.

(** C5, on the code. With nodes A and B and the edge E from A to B:
    [removeCell(A)] with default options removes E too; but
    [removeCell(A, { disconnectEdges: true })] keeps E with its source
    terminal still referring to the id of A, not replaced by the point (0,0):
    A has left the collection when [disconnectEdges] runs, so
    [getSourceCell()] no longer resolves to it and [setSource] is not
    reached. [getSourceCell()] is [null] afterwards only because A is gone. *)
Theorem removeCell_disconnect_keeps_source :
  (exists m',
      (forall fuel,
          Model.removeCell (3 + fuel) (inl "A") Options.none Examples.abc = Done m')
      /\ Model.has m' "A" = false /\ Model.has m' "E" = false
      /\ Model.has m' "B" = true) /\
  (exists m' e,
      (forall fuel,
          Model.removeCell (3 + fuel) (inl "A")
            (Options.mk false false true None None) Examples.abc = Done m')
      /\ Model.has m' "A" = false
      /\ Model.getCell m' "E" = Some e
      /\ kind e = EdgeKind (TerminalCell "A") (TerminalCell "B")
      /\ Model.getSourceCell m' e = None
      /\ Model.getTargetCell m' e = Model.getCell m' "B"
      /\ Model.has m' "B" = true).
Proof.
  split.
  - eexists. split; [intros fuel; vm_compute; reflexivity|]. repeat split.
  - eexists. eexists. split; [intros fuel; vm_compute; reflexivity|]. repeat split.
Qed.
(** ** Clearing *)

(** ** The sorts of the engines

    Both return the elements they were given, and see them only through the
    signs of the comparisons. *)

Module SortFacts.

Section Sorts.

Context {A : Type}.

Lemma insert_left_perm (comparefn : A -> A -> Z) (x : A) (l : list A) :
  Permutation (ArraySort.insert_left comparefn x l) (x :: l).
Proof.
  induction l as [|y l IH]; simpl; auto.
  destruct (0 <? comparefn y x)%Z; auto.
  rewrite IH. apply perm_swap.
Qed.

Lemma insertion_permutes (comparefn : A -> A -> Z) (l : list A) :
  Permutation (ArraySort.insertion comparefn l) l.
Proof.
  unfold ArraySort.insertion. rewrite <- Permutation_rev.
  assert (G : forall l acc,
             Permutation
               (fold_left (fun prefix_rev element =>
                             ArraySort.insert_left comparefn element prefix_rev) l acc)
               (l ++ acc)).
  { clear l. induction l as [|x l IH]; intros acc; simpl; auto.
    rewrite IH, insert_left_perm. symmetry. apply Permutation_middle. }
  rewrite G. now rewrite app_nil_r.
Qed.

Lemma search_le (comparefn : A -> A -> Z) (steps : nat) (pivot : A) (a : list A) :
  forall left right,
    left <= right ->
    left <= ArraySort.search comparefn steps pivot a left right <= right.
Proof.
  induction steps as [|steps IH]; intros left right H; cbn [ArraySort.search];
    [lia|].
  destruct (left <? right)%nat eqn:E; [|lia].
  apply Nat.ltb_lt in E.
  assert (M : left + (right - left) / 2 < right).
  { pose proof (Nat.div_lt (right - left) 2). lia. }
  assert (M' : left <= left + (right - left) / 2) by apply Nat.le_add_r.
  set (mid := left + (right - left) / 2) in *. clearbody mid.
  destruct (comparefn pivot _ <? 0)%Z.
  - specialize (IH left mid). lia.
  - specialize (IH (mid + 1) right). lia.
Qed.

Lemma insert_pivot_perm (a : list A) (start left : nat) (pivot : A) :
  nth_error a start = Some pivot -> left <= start ->
  Permutation
    (firstn left a ++ pivot :: firstn (start - left) (skipn left a)
       ++ skipn (S start) a) a.
Proof.
  intros Hn Hle.
  destruct (nth_error_split a start Hn) as (l1 & l2 & -> & Hlen).
  assert (E1 : firstn left (l1 ++ pivot :: l2) = firstn left l1).
  { rewrite firstn_app. replace (left - List.length l1) with 0 by lia.
    simpl. now rewrite app_nil_r. }
  assert (E2 : firstn (start - left) (skipn left (l1 ++ pivot :: l2)) = skipn left l1).
  { rewrite skipn_app. replace (left - List.length l1) with 0 by lia. simpl.
    rewrite firstn_app, length_skipn.
    replace (start - left - (List.length l1 - left)) with 0 by lia. simpl.
    rewrite app_nil_r. apply firstn_all2. rewrite length_skipn. lia. }
  assert (E3 : skipn (S start) (l1 ++ pivot :: l2) = l2).
  { rewrite skipn_app, (skipn_all2 l1) by lia.
    replace (S start - List.length l1) with 1 by lia. reflexivity. }
  rewrite E1, E2, E3.
  rewrite <- (firstn_skipn left l1) at 3. rewrite <- app_assoc.
  apply Permutation_app_head. apply Permutation_middle.
Qed.

Lemma binaryInsertion_permutes (comparefn : A -> A -> Z) (count : nat) :
  forall start a, Permutation (ArraySort.binaryInsertion comparefn count start a) a.
Proof.
  induction count as [|count IH]; intros start a; simpl; auto.
  destruct (nth_error a start) as [pivot|] eqn:E; auto.
  rewrite IH. apply insert_pivot_perm; auto.
  apply (search_le comparefn start pivot a 0 start). lia.
Qed.

Lemma countAndMakeRun_permutes (comparefn : A -> A -> Z) (a : list A) :
  Permutation (fst (ArraySort.countAndMakeRun comparefn a)) a.
Proof.
  unfold ArraySort.countAndMakeRun.
  destruct a as [|low [|next rest]]; cbn [fst]; auto.
  destruct (comparefn next low <? 0)%Z.
  - etransitivity;
      [apply Permutation_app_tail; symmetry; apply Permutation_rev|].
    now rewrite firstn_skipn.
  - now rewrite firstn_skipn.
Qed.

Lemma timsort_permutes (comparefn : A -> A -> Z) (a : list A) :
  Permutation (ArraySort.timsort comparefn a) a.
Proof.
  unfold ArraySort.timsort. destruct (List.length a <? 2)%nat; auto.
  pose proof (countAndMakeRun_permutes comparefn a) as H.
  destruct (ArraySort.countAndMakeRun comparefn a) as [a' n]. simpl in H.
  rewrite binaryInsertion_permutes. exact H.
Qed.

Section Signs.

Variable f : A -> A.
Variables comparefn comparefn' : A -> A -> Z.

Let same_signs : list A -> Prop := Clearing.same_signs f comparefn comparefn'.

Lemma same_signs_perm (l l' : list A) :
  Permutation l l' -> same_signs l -> same_signs l'.
Proof.
  intros P H a b Ia Ib.
  apply H; eapply Permutation_in; try (symmetry; exact P); assumption.
Qed.

Lemma sgn_negative (x y : Z) : Z.sgn x = Z.sgn y -> (x <? 0)%Z = (y <? 0)%Z.
Proof. destruct x, y; simpl; intros H; try discriminate; reflexivity. Qed.

Lemma sgn_nonnegative (x y : Z) : Z.sgn x = Z.sgn y -> (0 <=? x)%Z = (0 <=? y)%Z.
Proof. destruct x, y; simpl; intros H; try discriminate; reflexivity. Qed.

Lemma run_more_by_signs (descending : bool) (rest : list A) :
  forall previous,
    same_signs (previous :: rest) ->
    ArraySort.run_more comparefn' descending (f previous) (map f rest)
    = ArraySort.run_more comparefn descending previous rest.
Proof.
  induction rest as [|current rest IH]; intros previous H; simpl; auto.
  assert (S0 : Z.sgn (comparefn' (f current) (f previous))
               = Z.sgn (comparefn current previous)).
  { apply H; simpl; auto. }
  rewrite (sgn_negative _ _ S0), (sgn_nonnegative _ _ S0).
  destruct (if descending then _ else _); auto.
  f_equal. apply IH. intros a b Ia Ib. apply H; now right.
Qed.

Lemma countAndMakeRun_by_signs (a : list A) :
  same_signs a ->
  ArraySort.countAndMakeRun comparefn' (map f a)
  = (map f (fst (ArraySort.countAndMakeRun comparefn a)),
     snd (ArraySort.countAndMakeRun comparefn a)).
Proof.
  intros H. unfold ArraySort.countAndMakeRun.
  destruct a as [|low [|next rest]]; try reflexivity.
  cbn [map fst snd].
  assert (S0 : Z.sgn (comparefn' (f next) (f low)) = Z.sgn (comparefn next low)).
  { apply H; simpl; auto. }
  rewrite (sgn_negative _ _ S0).
  rewrite (run_more_by_signs _ rest next).
  - change (f low :: f next :: map f rest) with (map f (low :: next :: rest)).
    destruct (comparefn next low <? 0)%Z;
      now rewrite map_app, ?map_rev, firstn_map, skipn_map.
  - intros x y Ix Iy. apply H; now right.
Qed.

Lemma search_by_signs (steps : nat) (pivot : A) (a : list A) :
  In pivot a -> same_signs a ->
  forall left right,
    ArraySort.search comparefn' steps (f pivot) (map f a) left right
    = ArraySort.search comparefn steps pivot a left right.
Proof.
  intros Ip H. induction steps as [|steps IH]; intros left right;
    cbn [ArraySort.search]; auto.
  destruct (left <? right)%nat; auto.
  rewrite map_nth.
  assert (S0 : Z.sgn (comparefn' (f pivot)
                        (f (nth (left + (right - left) / 2) a pivot)))
               = Z.sgn (comparefn pivot (nth (left + (right - left) / 2) a pivot))).
  { apply H; auto.
    destruct (nth_in_or_default (left + (right - left) / 2) a pivot) as [I|E]; auto.
    now rewrite E. }
  rewrite (sgn_negative _ _ S0).
  destruct (_ <? 0)%Z; apply IH.
Qed.

Lemma binaryInsertion_by_signs (count : nat) :
  forall start a,
    same_signs a ->
    ArraySort.binaryInsertion comparefn' count start (map f a)
    = map f (ArraySort.binaryInsertion comparefn count start a).
Proof.
  induction count as [|count IH]; intros start a H; cbn [ArraySort.binaryInsertion];
    auto.
  rewrite nth_error_map.
  destruct (nth_error a start) as [pivot|] eqn:E; cbn [option_map]; auto.
  assert (Ip : In pivot a) by (eapply nth_error_In; eauto).
  rewrite (search_by_signs start pivot a Ip H).
  set (left := ArraySort.search comparefn start pivot a 0 start).
  rewrite <- IH.
  - f_equal.
    repeat first [rewrite skipn_map | rewrite firstn_map | rewrite map_app
                 | progress cbn [map]].
    reflexivity.
  - eapply same_signs_perm; [|exact H]. symmetry.
    apply insert_pivot_perm; auto.
    apply (search_le comparefn start pivot a 0 start). lia.
Qed.

Lemma timsort_by_signs (a : list A) :
  same_signs a ->
  ArraySort.timsort comparefn' (map f a) = map f (ArraySort.timsort comparefn a).
Proof.
  intros H. unfold ArraySort.timsort. rewrite length_map.
  destruct (List.length a <? 2)%nat; auto.
  rewrite (countAndMakeRun_by_signs a H).
  pose proof (countAndMakeRun_permutes comparefn a) as P.
  destruct (ArraySort.countAndMakeRun comparefn a) as [a' n]. cbn [fst snd] in *.
  apply binaryInsertion_by_signs.
  eapply same_signs_perm; [symmetry; exact P|exact H].
Qed.

Lemma sgn_positive (x y : Z) : Z.sgn x = Z.sgn y -> (0 <? x)%Z = (0 <? y)%Z.
Proof. destruct x, y; simpl; intros H; try discriminate; reflexivity. Qed.

Lemma insert_left_by_signs (x : A) (l : list A) :
  same_signs (x :: l) ->
  ArraySort.insert_left comparefn' (f x) (map f l)
  = map f (ArraySort.insert_left comparefn x l).
Proof.
  induction l as [|y l IH]; intros H; simpl; auto.
  assert (S0 : Z.sgn (comparefn' (f y) (f x)) = Z.sgn (comparefn y x)).
  { apply H; simpl; auto. }
  rewrite (sgn_positive _ _ S0).
  destruct (0 <? comparefn y x)%Z; simpl; auto.
  rewrite IH; auto. intros a b Ia Ib. apply H; simpl in *; tauto.
Qed.

Lemma insertion_by_signs (l : list A) :
  same_signs l ->
  ArraySort.insertion comparefn' (map f l) = map f (ArraySort.insertion comparefn l).
Proof.
  intros H. unfold ArraySort.insertion. rewrite map_rev. f_equal.
  assert (G : forall l0 acc,
             same_signs (l0 ++ acc) ->
             fold_left (fun prefix_rev element =>
                          ArraySort.insert_left comparefn' element prefix_rev)
                       (map f l0) (map f acc)
             = map f (fold_left (fun prefix_rev element =>
                                   ArraySort.insert_left comparefn element prefix_rev)
                                l0 acc)).
  { induction l0 as [|x l0 IH]; intros acc Hs; simpl; auto.
    rewrite insert_left_by_signs.
    - apply IH. eapply same_signs_perm; [|exact Hs].
      simpl. rewrite insert_left_perm. apply Permutation_middle.
    - intros a b Ia Ib. apply Hs; simpl; rewrite in_app_iff; simpl in *; tauto. }
  apply (G l []). now rewrite app_nil_r.
Qed.

End Signs.

End Sorts.

End SortFacts.

Module ClearFacts.

Import Model Clearing.

Lemma isEdge_detached held m : CellOps.isEdge (detached held m) = CellOps.isEdge held.
Proof.
  unfold detached. destruct (model held) as [r|]; [destruct (Nat.eqb r (self m))|];
    reflexivity.
Qed.

Lemma id_detached held m : id (detached held m) = id held.
Proof.
  unfold detached. destruct (model held) as [r|]; [destruct (Nat.eqb r (self m))|];
    reflexivity.
Qed.

Lemma removeCell_cleared (fuel : nat) (cell held : Cell) (options : Options.t)
  (m : t) :
  Options.clear options = true ->
  Collection.get (collection m) (id cell) = Some held ->
  removeCell (S fuel) (inr cell) options m = Done (cleared options held m).
Proof.
  intros Hclear Hget. simpl.
  unfold removeCell_with, has, collection_remove, Collection.remove.
  rewrite (CollectionFacts.get_has _ _ _ Hget), Hget.
  pose proof (CollectionFacts.get_some _ _ _ Hget) as [_ Hid].
  unfold on_collection_removed, onCellRemoved, afterCellRemoved.
  rewrite Hclear. cbn [negb bind]. rewrite <- Hid.
  unfold cleared, Removal.dropped, detached, CellOps.isNode.
  set (m1 := if CellOps.isEdge held then _ else _).
  destruct (model held) as [r|]; [destruct (Nat.eqb r (self m1))|];
    cbn [bind]; unfold CellOps.isNode, CellOps.isEdge, CellOps.set_model;
    cbn [kind]; fold (CellOps.isEdge held);
    destruct (CellOps.isEdge held) eqn:K; cbn [negb]; reflexivity.
Qed.

Lemma collection_cleared options held m :
  collection (cleared options held m) = Collection.remove_id (id held) (collection m).
Proof.
  unfold cleared. rewrite !BatchFacts.collection_notify.
  unfold Removal.dropped. destruct (CellOps.isEdge held); reflexivity.
Qed.

Lemma events_cleared options held m :
  exists cell,
    id cell = id held
    /\ events (cleared options held m)
       = events m
         ++ [mkEvent "cell:removed" (CellArgs cell options);
             mkEvent (if CellOps.isNode held then "node:removed" else "edge:removed")
                     (CellArgs cell options)].
Proof.
  unfold cleared. eexists. split; [apply id_detached|].
  rewrite !BatchFacts.events_notify, <- app_assoc. simpl.
  unfold Removal.dropped. destruct (CellOps.isEdge held); reflexivity.
Qed.

Lemma get_remove_id_other (k k0 : string) (c : Collection.t) :
  k0 <> k -> Collection.get (Collection.remove_id k c) k0 = Collection.get c k0.
Proof.
  intros Hne. unfold Collection.get, Collection.remove_id.
  induction c as [|x c IH]; simpl; auto.
  destruct (String.eqb (id x) k) eqn:E; simpl.
  - apply String.eqb_eq in E.
    destruct (String.eqb (id x) k0) eqn:E0; auto.
    apply String.eqb_eq in E0. congruence.
  - destruct (String.eqb (id x) k0); auto.
Qed.

(** The loop of [clear] over cells that are all held, each once. *)
Lemma clear_loop (fuel : nat) (options : Options.t) (l : list Cell) :
  Options.clear options = true ->
  NoDup (map id l) ->
  forall m,
    (forall c, In c l -> Collection.get (collection m) (id c) = Some c) ->
    forEach l (fun cell m => Cell_remove (S fuel) cell options m) m
    = Done (fold_left (fun m cell => cleared options cell m) l m).
Proof.
  intros Hclear. induction l as [|x l IH]; intros Hnd m Hheld; simpl; auto.
  inversion Hnd as [|? ? Hx Hl]; subst.
  unfold Cell_remove at 1.
  rewrite (removeCell_cleared fuel x x options m Hclear (Hheld x (or_introl eq_refl))).
  simpl. apply IH; auto.
  intros c I. rewrite collection_cleared, get_remove_id_other.
  - apply Hheld. now right.
  - intros E. apply Hx. rewrite <- E. now apply in_map.
Qed.

Lemma filter_none {A : Type} (p : A -> bool) (l : list A) :
  (forall x, In x l -> p x = false) -> filter p l = [].
Proof.
  induction l as [|x l IH]; intros H; simpl; auto.
  rewrite (H x (or_introl eq_refl)). apply IH. intros y I. apply H. now right.
Qed.

Lemma removals_app (a b : list Event) :
  Clearing.removals (a ++ b) = Clearing.removals a ++ Clearing.removals b.
Proof. unfold Clearing.removals. apply flat_map_app. Qed.

Lemma cleared_all (options : Options.t) (l : list Cell) :
  Options.clear options = true ->
  forall m,
    let m' := fold_left (fun m cell => cleared options cell m) l m in
    collection m'
    = filter (fun x => negb (existsb (String.eqb (id x)) (map id l))) (collection m)
    /\ exists evs,
        events m' = events m ++ evs
        /\ Clearing.removals evs = map (fun c => (id c, true)) l.
Proof.
  intros Hclear. induction l as [|x l IH]; intros m; simpl.
  - split.
    + symmetry. apply forallb_filter_id. apply forallb_forall. reflexivity.
    + exists []. now rewrite app_nil_r.
  - destruct (IH (cleared options x m)) as (Hc & evs & He & Hr). split.
    + rewrite Hc, collection_cleared. unfold Collection.remove_id.
      clear. induction (collection m) as [|y c IHc]; simpl; auto.
      rewrite (String.eqb_sym (id y) (id x)).
      destruct (String.eqb (id x) (id y)); simpl; [exact IHc|].
      destruct (existsb _ _); simpl; [exact IHc|now rewrite IHc].
    + destruct (events_cleared options x m) as (cell & Eid & Ee).
      eexists. split.
      * rewrite He, Ee, <- app_assoc. reflexivity.
      * rewrite removals_app, Hr. unfold Clearing.removals at 1. simpl.
        rewrite Eid, Hclear.
        destruct (CellOps.isNode x); reflexivity.
Qed.

Section AnyEngine.

Variable Array_sort : (Cell -> Cell -> Z) -> list Cell -> list Cell.

(** The engine's sort returns the elements it was given. *)
Hypothesis sort_permutes :
  forall comparefn l, Permutation (Array_sort comparefn l) l.

(** What [clear] does, whatever the engine: it removes every cell, each
    under [clear: true] and without the edge clean-up of [afterCellRemoved],
    in the order in which the sort leaves the array. *)
Lemma clear_trace (fuel : nat) (options : Options.t) (m : t) :
  NoDup (Collection.ids (collection m)) ->
  exists m',
    clear Array_sort (S fuel) options m = Done m'
    /\ getCells m' = []
    /\ Clearing.removals (Clearing.since m m')
       = map (fun c => (id c, true)) (Array_sort clear_comparefn (getCells m)).
Proof.
  intros Hnd. unfold clear.
  set (sorted := Array_sort clear_comparefn (getCells m)).
  assert (Hperm : Permutation sorted (collection m)) by apply sort_permutes.
  destruct (Nat.eqb (List.length (getCells m)) 0) eqn:E0.
  - exists m. apply Nat.eqb_eq, length_zero_iff_nil in E0.
    unfold getCells, Collection.toArray in *. rewrite E0 in Hperm.
    apply Permutation_sym, Permutation_nil in Hperm. rewrite E0.
    repeat split; auto. unfold Clearing.since. rewrite skipn_all.
    now rewrite Hperm.
  - unfold executeBatch.
    set (lo := Options.with_clear options).
    set (m1 := startBatch "clear" lo m).
    assert (Hc1 : collection m1 = collection m).
    { unfold m1, startBatch. now rewrite BatchFacts.collection_notify. }
    rewrite (clear_loop fuel lo sorted eq_refl).
    + cbn [bind].
      destruct (cleared_all lo sorted eq_refl m1) as (Hc & evs & He & Hr).
      eexists. split; [reflexivity|]. split.
      * unfold getCells, Collection.toArray, stopBatch.
        rewrite BatchFacts.collection_notify. cbn [collection set_batches].
        rewrite Hc, Hc1. apply filter_none. intros x Ix.
        apply negb_false_iff, existsb_exists. exists (id x).
        split; [|apply String.eqb_refl].
        apply in_map. eapply Permutation_in; [symmetry; exact Hperm|exact Ix].
      * unfold Clearing.since, stopBatch.
        rewrite BatchFacts.events_notify. cbn [events set_batches].
        rewrite He. unfold m1, startBatch.
        rewrite BatchFacts.events_notify. cbn [events set_batches].
        rewrite <- !app_assoc, skipn_app, skipn_all, Nat.sub_diag.
        cbn [skipn]. rewrite !removals_app, Hr.
        unfold Clearing.removals. simpl. now rewrite app_nil_r.
    + apply (Permutation_NoDup (l := Collection.ids (collection m))); auto.
      unfold Collection.ids. apply Permutation_map. now symmetry.
    + intros c I. rewrite Hc1.
      assert (Ic : In c (collection m)) by (eapply Permutation_in; eauto).
      destruct (Collection.get (collection m) (id c)) as [held|] eqn:G.
      * apply CollectionFacts.get_some in G. destruct G as [Ih Eid].
        f_equal. eapply PartitionFacts.unique_by_id; eauto.
      * apply CollectionFacts.get_none, CollectionFacts.has_false in G.
        exfalso. apply G. unfold Collection.ids. now apply in_map.
Qed.

(** The engine's sort sees the elements only through the signs of the
    comparisons: renaming the elements along [f], under a comparator of the
    same signs, renames the result. *)
Hypothesis sort_by_signs :
  forall (f : Cell -> Cell) comparefn comparefn' l,
    same_signs f comparefn comparefn' l ->
    Array_sort comparefn' (map f l) = map f (Array_sort comparefn l).

(** The comparator of [clear] is positive on every pair, so such a sort
    cannot tell a node from an edge: of the two orders of a node and an
    edge, one comes out with the node first. *)
Lemma node_first_somewhere (n e n' e' : Cell) :
  CellOps.isEdge n = false -> CellOps.isEdge e = true ->
  Array_sort clear_comparefn [n; e] = [n; e]
  \/ Array_sort clear_comparefn [e'; n'] = [n'; e'].
Proof.
  intros Kn Ke.
  destruct (Permutation_length_2_inv (Permutation_sym (sort_permutes clear_comparefn [n; e])))
    as [H|H]; [now left|right].
  pose (f := fun c : Cell => if CellOps.isEdge c then n' else e').
  assert (E : map f [n; e] = [e'; n']).
  { unfold f. simpl. now rewrite Kn, Ke. }
  rewrite <- E, (sort_by_signs f clear_comparefn clear_comparefn), H.
  - unfold f. simpl. now rewrite Kn, Ke.
  - intros a b _ _. unfold clear_comparefn.
    destruct (CellOps.isEdge (f a)), (CellOps.isEdge a); reflexivity.
Qed.

(** So on one of the two ways to hold a node N and its self-loop L, [clear]
    removes the node first. *)
Lemma clear_node_first_somewhere (fuel : nat) (options : Options.t) :
  let m1 := Examples.build [Examples.node "N"; Examples.edge "L" "N" "N"] in
  let m2 := Examples.build [Examples.edge "L" "N" "N"; Examples.node "N"] in
  (exists m', clear Array_sort (S fuel) options m1 = Done m'
              /\ Clearing.removals (Clearing.since m1 m')
                 = [("N", true); ("L", true)])
  \/ (exists m', clear Array_sort (S fuel) options m2 = Done m'
                 /\ Clearing.removals (Clearing.since m2 m')
                    = [("N", true); ("L", true)]).
Proof.
  intros m1 m2.
  assert (N1 : NoDup (Collection.ids (collection m1)))
    by (vm_compute; repeat constructor; simpl; intuition discriminate).
  assert (N2 : NoDup (Collection.ids (collection m2)))
    by (vm_compute; repeat constructor; simpl; intuition discriminate).
  destruct (clear_trace fuel options m1 N1) as (m1' & E1 & _ & R1).
  destruct (clear_trace fuel options m2 N2) as (m2' & E2 & _ & R2).
  assert (G1 : getCells m1 = [Examples.held m1 "N"; Examples.held m1 "L"])
    by (vm_compute; reflexivity).
  assert (G2 : getCells m2 = [Examples.held m2 "L"; Examples.held m2 "N"])
    by (vm_compute; reflexivity).
  rewrite G1 in R1. rewrite G2 in R2.
  destruct (node_first_somewhere (Examples.held m1 "N") (Examples.held m1 "L")
              (Examples.held m2 "N") (Examples.held m2 "L"))
    as [H|H]; try (vm_compute; reflexivity).
  - left. exists m1'. split; [exact E1|]. rewrite R1, H. vm_compute. reflexivity.
  - right. exists m2'. split; [exact E2|]. rewrite R2, H. vm_compute. reflexivity.
Qed.

End AnyEngine.

(** Both sorts of [ArraySort] are such engines. *)
Remark insertion_clears_node_first_somewhere (fuel : nat) (options : Options.t) :
  let m1 := Examples.build [Examples.node "N"; Examples.edge "L" "N" "N"] in
  let m2 := Examples.build [Examples.edge "L" "N" "N"; Examples.node "N"] in
  (exists m', clear (@ArraySort.insertion Cell) (S fuel) options m1 = Done m'
              /\ Clearing.removals (Clearing.since m1 m')
                 = [("N", true); ("L", true)])
  \/ (exists m', clear (@ArraySort.insertion Cell) (S fuel) options m2 = Done m'
                 /\ Clearing.removals (Clearing.since m2 m')
                    = [("N", true); ("L", true)]).
Proof.
  apply clear_node_first_somewhere.
  - intros comparefn l. apply SortFacts.insertion_permutes.
  - intros f comparefn comparefn' l. apply SortFacts.insertion_by_signs.
Qed.

Remark timsort_clears_node_first_somewhere (fuel : nat) (options : Options.t) :
  let m1 := Examples.build [Examples.node "N"; Examples.edge "L" "N" "N"] in
  let m2 := Examples.build [Examples.edge "L" "N" "N"; Examples.node "N"] in
  (exists m', clear (@ArraySort.timsort Cell) (S fuel) options m1 = Done m'
              /\ Clearing.removals (Clearing.since m1 m')
                 = [("N", true); ("L", true)])
  \/ (exists m', clear (@ArraySort.timsort Cell) (S fuel) options m2 = Done m'
                 /\ Clearing.removals (Clearing.since m2 m')
                    = [("N", true); ("L", true)]).
Proof.
  apply clear_node_first_somewhere.
  - intros comparefn l. apply SortFacts.timsort_permutes.
  - intros f comparefn comparefn' l. apply SortFacts.timsort_by_signs.
Qed.

End ClearFacts.

(** C2, on the code. On the graph of one node N carrying the self-loop L,
    held in z-order as N, L, [clear()] under V8's sort removes every cell
    under [clear: true], but the node N first and the edge L after it: the
    comparator [(cell) => (cell.isEdge() ? 1 : 2)] never returns a negative
    number, so the sort leaves the array as it was. *)
Theorem clear_removes_node_first :
  exists m',
    (forall fuel,
        Model.clear (@ArraySort.timsort Cell) (1 + fuel) Options.none Examples.loop
        = Done m')
    /\ Model.getCells m' = []
    /\ Clearing.removals (Clearing.since Examples.loop m')
       = [("N", true); ("L", true)].
Proof.
  eexists. split; [intros fuel; vm_compute; reflexivity|]. split; reflexivity.
Qed.

(** Under the insertion sort of older V8 versions the same comparator
    reverses the array, and the node goes first when the edge was held below
    it. *)
Remark clear_removes_node_first_legacy :
  let m := Examples.build [Examples.edge "L" "N" "N"; Examples.node "N"] in
  exists m',
    (forall fuel,
        Model.clear (@ArraySort.insertion Cell) (1 + fuel) Options.none m = Done m')
    /\ Clearing.removals (Clearing.since m m') = [("N", true); ("L", true)].
Proof.
  eexists. split; [intros fuel; vm_compute; reflexivity|]. reflexivity.
Qed.

(** ** Connected edges with [indirect] *)

Module IndirectFacts.

Import Model.

(** Two edges that end on each other and have no outgoing edges of their
    own: the terminal branch of [collect] pushes the terminal without
    recording it in [cache], so each call starts the other one anew. *)
Lemma collect_terminal_cycle (m : t) (e1 e2 : Cell) (incoming outgoing : bool) :
  Cell_getOutgoingEdges m e1 = [] ->
  Cell_getOutgoingEdges m e2 = [] ->
  getTargetCell m e1 = Some e2 ->
  getTargetCell m e2 = Some e1 ->
  CellOps.isEdge e1 = true ->
  CellOps.isEdge e2 = true ->
  forall fuel result cache,
    KeyValue.truthy cache (id e1) = false ->
    KeyValue.truthy cache (id e2) = false ->
    collect fuel m true incoming outgoing e1 true (result, cache) = Diverges
    /\ collect fuel m true incoming outgoing e2 true (result, cache) = Diverges.
Proof.
  intros O1 O2 T1 T2 K1 K2.
  induction fuel as [|fuel IH]; intros result cache C1 C2; [split; reflexivity|].
  split; simpl.
  - rewrite O1. simpl. rewrite K1, T1, K2, C2. simpl.
    apply (IH (result ++ [e2])%list cache C1 C2).
  - rewrite O2. simpl. rewrite K2, T2, K1, C1. simpl.
    apply (IH (result ++ [e1])%list cache C1 C2).
Qed.

End IndirectFacts.

(** C3, on the code. With two edges E1 and E3 from the node N that both end
    on the edge E2, [getConnectedEdges(N, { indirect: true })] returns E2
    twice: the terminal branch of [collect] tests [cache] but does not
    record the edge it pushes. *)
Theorem getConnectedEdges_repeats_edge :
  exists edges,
    (forall fuel,
        Model.getConnectedEdges (3 + fuel) Examples.fan
          (inr (Examples.held Examples.fan "N"))
          (GetConnectedEdgesOptions.mk None None true false false) = Done edges)
    /\ map id edges = ["E1"; "E2"; "E3"; "E2"]
    /\ ~ NoDup (map id edges).
Proof.
  eexists. split; [intros fuel; vm_compute; reflexivity|]. split; [reflexivity|].
  simpl. intros H. inversion H as [|? ? _ H1]; subst.
  inversion H1 as [|? ? H2 _]; subst. apply H2. simpl. auto.
Qed.

(** C4, on the code. With two edges E1 and E2 that end on each other,
    [getConnectedEdges(E1, { indirect: true })] does not return, whatever
    recursion depth it is allowed: [collect] re-enters itself on E2, E1,
    E2, ... without ever marking them in [cache]. *)
Theorem getConnectedEdges_indirect_diverges (fuel : nat) :
  Model.getConnectedEdges fuel Examples.cycle
    (inr (Examples.held Examples.cycle "E1"))
    (GetConnectedEdgesOptions.mk None None true false false) = Diverges.
Proof.
  unfold Model.getConnectedEdges.
  cbn [GetConnectedEdgesOptions.indirect GetConnectedEdgesOptions.incoming
       GetConnectedEdgesOptions.outgoing].
  cbv iota beta.
  destruct (IndirectFacts.collect_terminal_cycle Examples.cycle
              (Examples.held Examples.cycle "E1")
              (Examples.held Examples.cycle "E2") true true)
    with (fuel := fuel) (result := @nil Cell) (cache := @KeyValue.empty bool)
    as [H _]; try (vm_compute; reflexivity).
  rewrite H. reflexivity.
Qed.

(** ** Shortest paths *)

Module ShortestPathFacts.

Import Model Paths.

Lemma listed_ensure adjacencyList k u v :
  listed (ensure adjacencyList k) u v -> listed adjacencyList u v.
Proof.
  unfold ensure. destruct (KeyValue.get adjacencyList k) eqn:E; auto.
  intros (vs & G & I). destruct (String.eqb k u) eqn:Ek.
  - apply String.eqb_eq in Ek. subst.
    rewrite KeyValueFacts.get_set_same in G. inversion G; subst. destruct I.
  - apply String.eqb_neq in Ek. rewrite KeyValueFacts.get_set_other in G; auto.
    exists vs. auto.
Qed.

Lemma listed_push adjacencyList k w u v :
  listed (push adjacencyList k w) u v ->
  listed adjacencyList u v \/ (u = k /\ v = w).
Proof.
  unfold push. intros (vs & G & I).
  destruct (String.eqb k u) eqn:Ek.
  - apply String.eqb_eq in Ek. subst.
    destruct (KeyValue.get adjacencyList u) as [old|] eqn:E;
      rewrite KeyValueFacts.get_set_same in G; inversion G; subst.
    + apply in_app_iff in I. destruct I as [I|[<-|[]]]; auto.
      left. exists old. auto.
    + destruct I as [<-|[]]. auto.
  - apply String.eqb_neq in Ek.
    destruct (KeyValue.get adjacencyList k);
      rewrite KeyValueFacts.get_set_other in G; auto; left; exists vs; auto.
Qed.

Lemma listed_addArcs directed adjacencyList edge u v :
  listed (addArcs directed adjacencyList edge) u v ->
  listed adjacencyList u v
  \/ (Edge.getSourceCellId edge = Some u /\ Edge.getTargetCellId edge = Some v)
  \/ (directed = false
      /\ Edge.getSourceCellId edge = Some v /\ Edge.getTargetCellId edge = Some u).
Proof.
  unfold addArcs.
  destruct (Edge.getSourceCellId edge) as [s|]; auto.
  destruct (Edge.getTargetCellId edge) as [t0|]; auto.
  destruct (truthy_string s && truthy_string t0)%bool; auto.
  destruct directed; simpl; intros H.
  - apply listed_push in H. destruct H as [H|[-> ->]]; auto.
    left. eauto using listed_ensure.
  - apply listed_push in H. destruct H as [H|[-> ->]]; auto.
    apply listed_push in H. destruct H as [H|[-> ->]]; auto.
    left. eauto using listed_ensure.
Qed.

Lemma listed_adjacency m directed u v :
  listed (adjacency m directed) u v -> arc m directed u v.
Proof.
  unfold adjacency, arc.
  assert (G : forall l acc,
             listed (fold_left (addArcs directed) l acc) u v ->
             listed acc u v
             \/ exists edge,
                 In edge l
                 /\ ((Edge.getSourceCellId edge = Some u
                      /\ Edge.getTargetCellId edge = Some v)
                     \/ (directed = false
                         /\ Edge.getSourceCellId edge = Some v
                         /\ Edge.getTargetCellId edge = Some u))).
  { induction l as [|e l IH]; intros acc H; simpl in *; auto.
    apply IH in H. destruct H as [H|(edge & I & H)].
    - apply listed_addArcs in H. destruct H as [H|H]; auto.
      right. exists e. auto.
    - right. exists edge. auto. }
  intros H. apply G in H. destruct H as [(vs & H & _)|H]; [discriminate|exact H].
Qed.

Section Search.

Variable adjacencyList : Dijkstra.AdjacencyList.
Variable weight : Dijkstra.Weight.
Variable source : string.

Lemma sound_relax u v s :
  listed adjacencyList u v ->
  sound adjacencyList source s ->
  sound adjacencyList source (Dijkstra.relax weight u v s).
Proof.
  intros Harc [Hd Hp]. unfold Dijkstra.relax.
  destruct (negb (KeyValue.truthy (Dijkstra.scanned s) v)); [|split; auto].
  unfold Dijkstra.dist_of.
  destruct (KeyValue.get (Dijkstra.dist s) u) as [d|] eqn:Eu;
    cbn [option_map]; [|split; auto].
  destruct (Dijkstra.dist_lt (Some (d + weight u v)%Z)
              (KeyValue.get (Dijkstra.dist s) v)); [|split; auto].
  assert (Rv : clos_refl_trans string (listed adjacencyList) source v).
  { eapply rt_trans; [apply (Hd u d Eu)|apply rt_step, Harc]. }
  split; simpl; intros x y G.
  - destruct (String.eqb v x) eqn:E.
    + apply String.eqb_eq in E. now subst.
    + apply String.eqb_neq in E. rewrite KeyValueFacts.get_set_other in G; eauto.
  - destruct (String.eqb v x) eqn:E.
    + apply String.eqb_eq in E. now subst.
    + apply String.eqb_neq in E. rewrite KeyValueFacts.get_set_other in G; eauto.
Qed.

Lemma sound_scan rounds :
  forall queue s,
    sound adjacencyList source s ->
    sound adjacencyList source (Dijkstra.scan rounds adjacencyList weight queue s).
Proof.
  induction rounds as [|rounds IH]; intros queue s H; simpl; auto.
  destruct (Dijkstra.least (Dijkstra.dist s) queue) as [u|]; auto.
  apply IH.
  set (s0 := Dijkstra.mkSearch _ _ _).
  assert (H0 : sound adjacencyList source s0) by exact H.
  clearbody s0.
  destruct (KeyValue.get adjacencyList u) as [vs|] eqn:E; simpl; auto.
  assert (Hvs : forall v, In v vs -> listed adjacencyList u v).
  { intros v I. exists vs. auto. }
  clear E. revert s0 H0. induction vs as [|v vs IHvs]; intros s0 H0; simpl; auto.
  apply IHvs.
  - intros x I. apply Hvs. now right.
  - apply sound_relax; auto. apply Hvs. now left.
Qed.

End Search.

Lemma run_reached adjacencyList source weight v u :
  KeyValue.get (Dijkstra.run adjacencyList source weight) v = Some u ->
  clos_refl_trans string (listed adjacencyList) source v.
Proof.
  unfold Dijkstra.run. intros H.
  eapply (sound_scan adjacencyList _ source); [|exact H].
  split; simpl; intros x y G; [|discriminate].
  destruct (String.eqb source x) eqn:E; [|discriminate].
  apply String.eqb_eq in E. subst. apply rt_refl.
Qed.

Lemma previous_connected m source target options u :
  KeyValue.get
    (Dijkstra.run (adjacency m (GetShortestPathOptions.directed options)) source
       (GetShortestPathOptions.weight options)) target = Some u ->
  connected m (GetShortestPathOptions.directed options) source target.
Proof.
  intros H. apply run_reached in H. unfold connected.
  induction H as [x y H| |x y z _ IH1 _ IH2].
  - apply rt_step. now apply listed_adjacency.
  - apply rt_refl.
  - eapply rt_trans; eauto.
Qed.

Lemma permutation_of_three {A : Type} (x y z : A) (l : list A) :
  Permutation [x; y; z] l ->
  l = [x; y; z] \/ l = [x; z; y] \/ l = [y; x; z]
  \/ l = [y; z; x] \/ l = [z; x; y] \/ l = [z; y; x].
Proof.
  intros H.
  destruct (Permutation_vs_cons_inv (Permutation_sym H)) as (l1 & l2 & ->).
  apply Permutation_cons_app_inv in H.
  apply Permutation_length_2_inv in H.
  destruct l1 as [|p [|q [|r l1]]]; simpl in H;
    destruct H as [H|H]; inversion H; subst; simpl; auto 10;
    match goal with
    | E : [] = _ ++ _ :: _ |- _ => destruct (app_cons_not_nil _ _ _ E)
    | _ => idtac
    end.
Qed.

Lemma getShortestPath_ABCD (m : t) (directed : bool) (fuel : nat) :
  is_path_ABCD m ->
  getShortestPath (4 + fuel) m (inl "A") (inl "D")
    (GetShortestPathOptions.mk directed None) = Done ["A"; "B"; "C"; "D"].
Proof.
  intros (e1 & e2 & e3 & HP & S1 & T1 & S2 & T2 & S3 & T3).
  unfold getShortestPath, adjacency.
  apply permutation_of_three in HP.
  destruct HP as [-> | [-> | [-> | [-> | [-> | ->]]]]];
    cbn [GetShortestPathOptions.directed GetShortestPathOptions.weight fold_left];
    unfold addArcs; rewrite S1, T1, S2, T2, S3, T3;
    destruct directed; vm_compute; reflexivity.
Qed.

Lemma path_is_path_ABCD : is_path_ABCD Examples.path.
Proof.
  exists (Examples.held Examples.path "AB"), (Examples.held Examples.path "BC"),
    (Examples.held Examples.path "CD").
  split.
  - replace (getEdges Examples.path)
      with [Examples.held Examples.path "AB"; Examples.held Examples.path "BC";
            Examples.held Examples.path "CD"]
      by (vm_compute; reflexivity).
    apply Permutation_refl.
  - repeat split; vm_compute; reflexivity.
Qed.

Lemma terminals_of_path :
  map (fun e => (Edge.getSourceCellId e, Edge.getTargetCellId e))
      (getEdges Examples.path)
  = [(Some "A", Some "B"); (Some "B", Some "C"); (Some "C", Some "D")].
Proof. vm_compute. reflexivity. Qed.

Lemma arc_path_avoids_E directed u v :
  arc Examples.path directed u v -> u <> "E" /\ v <> "E".
Proof.
  intros (edge & I & H).
  assert (G : forall s t0, Edge.getSourceCellId edge = Some s ->
                           Edge.getTargetCellId edge = Some t0 ->
                           s <> "E" /\ t0 <> "E").
  { apply (in_map (fun e => (Edge.getSourceCellId e, Edge.getTargetCellId e))) in I.
    rewrite terminals_of_path in I. intros s t0 E1 E2. rewrite E1, E2 in I.
    destruct I as [I|[I|[I|[]]]]; inversion I; split; discriminate. }
  destruct H as [[H1 H2]|(_ & H1 & H2)]; destruct (G _ _ H1 H2);
    split; assumption.
Qed.

Lemma path_E_apart directed : ~ connected Examples.path directed "A" "E".
Proof.
  assert (G : forall u v, connected Examples.path directed u v ->
                          u <> "E" -> v <> "E").
  { induction 1 as [x y H| |]; auto.
    intros _. apply (arc_path_avoids_E _ _ _ H). }
  intros H. apply (G _ _ H); [discriminate|reflexivity].
Qed.

End ShortestPathFacts.



(** ** Sub-graphs *)

Module SubGraphFacts.

Import Model SubGraphs.

Lemma cached_set (cache : KeyValue.t Cell) (k k0 : string) (c : Cell) :
  cached (KeyValue.set cache k c) k0 = (String.eqb k k0 || cached cache k0)%bool.
Proof.
  unfold cached. destruct (String.eqb k k0) eqn:E.
  - apply String.eqb_eq in E. subst. now rewrite KeyValueFacts.get_set_same.
  - apply String.eqb_neq in E. now rewrite KeyValueFacts.get_set_other.
Qed.

Lemma grows_holds s s' k : grows s s' -> holds s k -> holds s' k.
Proof.
  unfold holds. intros G H. apply in_map_iff in H. destruct H as (c & E & I).
  apply in_map_iff. exists c. auto.
Qed.

Lemma grows_refl s : grows s s.
Proof. intros c H. exact H. Qed.

Lemma grows_trans s1 s2 s3 : grows s1 s2 -> grows s2 s3 -> grows s1 s3.
Proof. intros H1 H2 c H. auto. Qed.

Lemma tracked_push (s : SubGraph) (c : Cell) (nodes' edges' : list Cell) :
  tracked s ->
  tracked (mkSubGraph (sub_subgraph s ++ [c]) (KeyValue.set (sub_cache s) (id c) c)
             nodes' edges').
Proof.
  intros T k. unfold holds. simpl. rewrite cached_set, map_app, in_app_iff.
  rewrite orb_true_iff, String.eqb_eq, (T k). simpl. unfold holds. tauto.
Qed.

(** *** First pass *)

Lemma collect_spec (cell : Cell) (s : SubGraph) :
  tracked s -> edges_listed s ->
  tracked (subgraph_collect cell s)
  /\ edges_listed (subgraph_collect cell s)
  /\ grows s (subgraph_collect cell s)
  /\ holds (subgraph_collect cell s) (id cell)
  /\ (forall c, In c (sub_subgraph (subgraph_collect cell s)) ->
                In c (sub_subgraph s) \/ c = cell).
Proof.
  intros T E. unfold subgraph_collect.
  destruct (cached (sub_cache s) (id cell)) eqn:C; simpl.
  - repeat split; auto using grows_refl; try apply T; try apply E; auto.
  - split; [now apply tracked_push|]. split; [|split; [|split]].
    + intros e. simpl. rewrite in_app_iff. simpl.
      destruct (CellOps.isEdge cell) eqn:K.
      * rewrite in_app_iff, (E e). simpl. split.
        -- intros [[H1 H2]|[<-|[]]]; auto.
        -- intros [[H|[<-|[]]] H2]; auto.
      * rewrite (E e). split.
        -- intros [H1 H2]; auto.
        -- intros [[H|[<-|[]]] H2]; auto. congruence.
    + intros c H. simpl. apply in_app_iff. now left.
    + unfold holds. simpl. rewrite map_app, in_app_iff. simpl. auto.
    + intros c H. apply in_app_iff in H. destruct H as [H|[<-|[]]]; auto.
Qed.

Lemma pass1_spec (l : list Cell) :
  forall s,
    tracked s -> edges_listed s ->
    let s' := fold_left (fun s cell => subgraph_collect cell s) l s in
    tracked s' /\ edges_listed s' /\ grows s s'
    /\ (forall c, In c l -> holds s' (id c))
    /\ (forall c, In c (sub_subgraph s') -> In c (sub_subgraph s) \/ In c l).
Proof.
  induction l as [|x l IH]; intros s T E; simpl.
  - repeat split; auto using grows_refl; try apply T; try apply E; tauto.
  - destruct (collect_spec x s T E) as (T1 & E1 & G1 & H1 & S1).
    destruct (IH _ T1 E1) as (T2 & E2 & G2 & H2 & S2).
    split; [exact T2|]. split; [exact E2|]. split; [eauto using grows_trans|].
    split.
    + intros c [<-|I]; auto. eapply grows_holds; eauto.
    + intros c I. apply S2 in I. destruct I as [I|I]; auto.
      apply S1 in I. destruct I as [I|<-]; auto.
Qed.

(** *** Second pass *)

Lemma pull_spec (terminal : option Cell) (s : SubGraph) :
  tracked s ->
  tracked (subgraph_pull terminal s)
  /\ grows s (subgraph_pull terminal s)
  /\ (forall c, terminal = Some c -> holds (subgraph_pull terminal s) (id c))
  /\ (forall c, In c (sub_subgraph (subgraph_pull terminal s)) ->
                In c (sub_subgraph s) \/ terminal = Some c).
Proof.
  intros T. unfold subgraph_pull. destruct terminal as [c|].
  - destruct (cached (sub_cache s) (id c)) eqn:C; simpl.
    + repeat split; auto using grows_refl; try apply T; auto;
        try (intros c0 E; inversion E; subst; now apply T).
    + split; [now apply tracked_push|]. split; [|split].
      * intros x H. simpl. apply in_app_iff. now left.
      * intros c0 E. inversion E; subst. unfold holds. simpl.
        rewrite map_app, in_app_iff. simpl. auto.
      * intros x H. apply in_app_iff in H. destruct H as [H|[<-|[]]]; auto.
  - repeat split; auto using grows_refl; try apply T; auto. discriminate.
Qed.

Lemma pass2_spec (m : t) (edges : list Cell) :
  forall s,
    tracked s ->
    let s' := fold_left
                (fun s edge =>
                   subgraph_pull (getTargetCell m edge)
                     (subgraph_pull (getSourceCell m edge) s)) edges s in
    tracked s' /\ grows s s'
    /\ (forall e c, In e edges -> resolves m e c -> holds s' (id c))
    /\ (forall c, In c (sub_subgraph s') ->
                  In c (sub_subgraph s) \/ exists e, In e edges /\ resolves m e c).
Proof.
  induction edges as [|x edges IH]; intros s T; simpl.
  - repeat split; auto using grows_refl; try apply T; try tauto.
  - destruct (pull_spec (getSourceCell m x) s T) as (T1 & G1 & H1 & S1).
    destruct (pull_spec (getTargetCell m x) _ T1) as (T2 & G2 & H2 & S2).
    destruct (IH _ T2) as (T3 & G3 & H3 & S3).
    split; [exact T3|]. split; [eauto using grows_trans|]. split.
    + intros e c [<-|I] R; [|eauto].
      eapply grows_holds; [exact G3|].
      destruct R as [R|R]; [|auto].
      eapply grows_holds; [exact G2|]. auto.
    + intros c I. apply S3 in I. destruct I as [I|(e & I & R)].
      * apply S2 in I. destruct I as [I|I].
        -- apply S1 in I. destruct I as [I|I]; auto.
           right. exists x. split; [now left|now left].
        -- right. exists x. split; [now left|now right].
      * right. exists e. auto.
Qed.

(** *** Third pass *)

Lemma closed_in_grows m s s' c : grows s s' -> closed_in m s c -> closed_in m s' c.
Proof. intros G H t R. eapply grows_holds; eauto. Qed.

Lemma connect_spec (m : t) (edge : Cell) (s : SubGraph) :
  tracked s ->
  tracked (subgraph_connect m edge s)
  /\ grows s (subgraph_connect m edge s)
  /\ sub_nodes (subgraph_connect m edge s) = sub_nodes s
  /\ (forall c, In c (sub_subgraph (subgraph_connect m edge s)) ->
                In c (sub_subgraph s) \/ closed_in m s c).
Proof.
  intros T. unfold subgraph_connect.
  destruct (negb (cached (sub_cache s) (id edge))); simpl;
    [|repeat split; auto using grows_refl; apply T].
  destruct (getSourceCell m edge) as [sc|] eqn:Es; simpl;
    [|repeat split; auto using grows_refl; apply T].
  destruct (cached (sub_cache s) (id sc)) eqn:Cs; simpl;
    [|repeat split; auto using grows_refl; apply T].
  destruct (getTargetCell m edge) as [tc|] eqn:Et; simpl;
    [|repeat split; auto using grows_refl; apply T].
  destruct (cached (sub_cache s) (id tc)) eqn:Ct; simpl;
    [|repeat split; auto using grows_refl; apply T].
  split; [now apply tracked_push|]. split; [|split; [reflexivity|]].
  - intros x H. simpl. apply in_app_iff. now left.
  - intros x H. apply in_app_iff in H. destruct H as [H|[<-|[]]]; auto.
    right. intros t0 [R|R]; rewrite R in *.
    + inversion Es; subst. now apply T.
    + inversion Et; subst. now apply T.
Qed.

Lemma connect_all_spec (m : t) (edges : list Cell) :
  forall s,
    tracked s ->
    let s' := fold_left (fun s edge => subgraph_connect m edge s) edges s in
    tracked s' /\ grows s s'
    /\ (forall c, In c (sub_subgraph s') ->
                  In c (sub_subgraph s) \/ closed_in m s' c).
Proof.
  induction edges as [|x edges IH]; intros s T; simpl.
  - repeat split; auto using grows_refl; apply T.
  - destruct (connect_spec m x s T) as (T1 & G1 & _ & S1).
    destruct (IH _ T1) as (T2 & G2 & S2).
    split; [exact T2|]. split; [eauto using grows_trans|].
    intros c I. apply S2 in I. destruct I as [I|I]; auto.
    apply S1 in I. destruct I as [I|I]; auto.
    right. eapply closed_in_grows; [|exact I]. eauto using grows_trans.
Qed.

(** *** The three passes together *)

Lemma getSubGraph_spec (fuel : nat) (m : t) (cells : list Cell)
  (options : GetSubgraphOptions.t) (res : list Cell) :
  let expanded := subgraph_expanded cells (GetSubgraphOptions.deep options) in
  ids_identify expanded ->
  getSubGraph fuel m cells options = Done res ->
  (forall c, In c expanded -> In c res)
  /\ (forall e t, In e expanded -> CellOps.isEdge e = true ->
                  resolves m e t -> In (id t) (map id res))
  /\ (forall e, In e res -> CellOps.isEdge e = true ->
                (forall t, resolves m e t -> In (id t) (map id res))
                \/ (exists e', In e' expanded /\ CellOps.isEdge e' = true
                               /\ resolves m e' e)).
Proof.
  intros expanded Hids H. unfold getSubGraph in H. fold expanded in H.
  set (s0 := mkSubGraph [] KeyValue.empty [] []) in H.
  assert (T0 : tracked s0).
  { intros k. unfold holds. simpl. split; [discriminate|tauto]. }
  assert (E0 : edges_listed s0).
  { intros e. simpl. tauto. }
  destruct (pass1_spec expanded s0 T0 E0) as (T1 & E1 & _ & H1 & S1).
  set (s1 := fold_left (fun s cell => subgraph_collect cell s) expanded s0) in *.
  destruct (pass2_spec m (sub_edges s1) s1 T1) as (T2 & G2 & H2 & S2).
  set (s2 := fold_left _ (sub_edges s1) s1) in *.
  destruct (forEach (sub_nodes s2) _ s2) as [s3| |] eqn:E3; simpl in H;
    try discriminate.
  inversion H; subst res; clear H.
  assert (P3 : tracked s3 /\ grows s2 s3
               /\ (forall c, In c (sub_subgraph s3) ->
                             In c (sub_subgraph s2) \/ closed_in m s3 c)).
  { revert E3.
    apply (OutcomeFacts.forEach_preserves
             (fun s => tracked s /\ grows s2 s
                       /\ (forall c, In c (sub_subgraph s) ->
                                     In c (sub_subgraph s2) \/ closed_in m s c))).
    - intros node s s' _ (Ts & Gs & Cs) E.
      destruct (getConnectedEdges fuel m (inr node)
                  (GetSubgraphOptions.toConnected options)) as [edges| |];
        simpl in E; try discriminate.
      inversion E; subst s'; clear E.
      destruct (connect_all_spec m edges s Ts) as (T' & G' & S').
      split; [exact T'|]. split; [eauto using grows_trans|].
      intros c I. apply S' in I. destruct I as [I|I]; auto.
      apply Cs in I. destruct I as [I|I]; auto.
      right. eapply closed_in_grows; eauto.
    - split; [exact T2|]. split; [apply grows_refl|]. auto. }
  destruct P3 as (T3 & G3 & C3).
  assert (In1 : forall c, In c expanded -> In c (sub_subgraph s1)).
  { intros c I. pose proof (H1 c I) as Hc. unfold holds in Hc.
    apply in_map_iff in Hc. destruct Hc as (c0 & Eid & I0).
    destruct (S1 c0 I0) as [[]|I0'].
    rewrite <- (Hids c0 c I0' I Eid). exact I0. }
  assert (Closed1 : forall e t0, In e expanded -> CellOps.isEdge e = true ->
                                 resolves m e t0 -> holds s3 (id t0)).
  { intros e t0 I K R. eapply grows_holds; [exact G3|].
    apply (H2 e t0); auto. apply E1. auto. }
  split; [|split].
  - intros c I. apply G3, G2, In1, I.
  - exact Closed1.
  - intros e I K. apply C3 in I. destruct I as [I|I]; [|left; exact I].
    apply S2 in I. destruct I as [I|(e' & I' & R)].
    + left. intros t0 R. apply (Closed1 e t0); auto.
      destruct (S1 e I) as [[]|I']. exact I'.
    + right. exists e'. apply E1 in I'. destruct I' as [I' K'].
      destruct (S1 e' I') as [[]|I'']. auto.
Qed.

(** Without [deep], [getSubGraph] returns whenever it may recurse once. *)
Lemma getSubGraph_returns (fuel : nat) (m : t) (cells : list Cell) :
  returns (getSubGraph (S fuel) m cells GetSubgraphOptions.none).
Proof.
  unfold getSubGraph.
  match goal with
  | |- returns (bind (forEach ?xs ?body ?s0) _) =>
      destruct (OutcomeFacts.forEach_returns (fun _ => True) body xs)
        with (s := s0) as [s' [E _]]; auto
  end.
  - intros node s _ _.
    destruct (ConnectedFacts.getConnectedEdges_direct_returns fuel m (inr node)
                None None) as [edges E].
    unfold GetSubgraphOptions.toConnected. simpl GetSubgraphOptions.deep.
    rewrite E. simpl. eauto.
  - rewrite E. simpl. unfold returns. eauto.
Qed.

End SubGraphFacts.




(** An edge that came in only as the terminal of an input edge keeps its own
    terminals outside: from the edge E1, which ends on the edge E2 from X to
    Y, the result is E1, N, E2, without X and Y. *)
Remark getSubGraph_terminal_edge_open :
  exists res,
    (forall fuel,
        Model.getSubGraph (1 + fuel) Examples.chain
          [Examples.held Examples.chain "E1"] GetSubgraphOptions.none = Done res)
    /\ map id res = ["E1"; "N"; "E2"]
    /\ Model.getSourceCell Examples.chain (Examples.held Examples.chain "E2")
       = Some (Examples.held Examples.chain "X").
Proof.
  eexists. split; [intros fuel; vm_compute; reflexivity|].
  split; vm_compute; reflexivity.
Qed.
